(** * Splitting duplicate EUD assignments: the migration
      [20260205_split_duplicate_euds_and_add_unique_constraints.py]

    The migration has two entry points, [upgrade] and [downgrade], that
    talk to the database through SQL statements.  The development embeds
    - the string functions of the statements ([POSITION], [SUBSTRING],
      [LIKE '%::dup::%'], the f-string that builds a clone uid),
    - the three tables the statements touch, as finite maps keyed by
      their unique column,
    - each statement as a function on the store, as PostgreSQL answers
      it (the queries use [array_agg(id ORDER BY id)], which fixes the
      database), and
    - the two passes as programs of a small error monad that also
      records the store after every statement that writes.
    The definitions come first; the proofs follow them: the properties of
    the migration's description, C1 to C10, and further properties of the
    code, X1 to X16. *)

From Stdlib Require Import Ascii DecimalString DecimalZ.
From stdpp Require Import gmap strings list fin_maps sorting.

(** ** Strings *)

Module Sql.

(** The token of [f"{eud_uid}::dup::{cert_id}"], of [POSITION('::dup::' IN _)]
    and of [LIKE '%::dup::%']. *)
Definition separator : string := "::dup::".

(** [starts_with p s]: [p] is a prefix of [s]. *)
Fixpoint starts_with (p s : string) : bool :=
  match p, s with
  | EmptyString, _ => true
  | String _ _, EmptyString => false
  | String a p', String b s' => Ascii.eqb a b && starts_with p' s'
  end.

(** [POSITION(sub IN s)]: the 1-based index of the first occurrence of
    [sub] in [s], and 0 when there is none. *)
Fixpoint position (sub s : string) : nat :=
  if starts_with sub s then 1
  else match s with
       | EmptyString => 0
       | String _ s' => match position sub s' with 0 => 0 | S p => S (S p) end
       end.

(** [s LIKE '%sub%'], for a [sub] without wildcard characters. *)
Fixpoint like_infix (sub s : string) : bool :=
  starts_with sub s ||
  match s with
  | EmptyString => false
  | String _ s' => like_infix sub s'
  end.

(** [SUBSTRING(s FROM 1 FOR n)]. *)
Fixpoint substring_for (n : nat) (s : string) : string :=
  match n, s with
  | S n', String c s' => String c (substring_for n' s')
  | _, _ => EmptyString
  end.

(** [s] ends with [suf]. *)
Fixpoint ends_with (suf s : string) : bool :=
  String.eqb suf s ||
  match s with
  | EmptyString => false
  | String _ s' => ends_with suf s'
  end.

(** [SUBSTRING(x FROM 1 FOR POSITION('::dup::' IN x) - 1)], the rewrite of
    [downgrade]. *)
Definition orig_uid (uid : string) : string :=
  substring_for (position separator uid - 1) uid.

End Sql.

(** Python's [str] of an [int], as the f-string applies it to a record id. *)
Definition str (z : Z) : string := NilEmpty.string_of_int (Z.to_int z).

(** [new_uid = f"{eud_uid}::dup::{cert_id}"] (and the same with
    [creator_uid] and [pkg_id]). *)
Definition new_uid (eud_uid : string) (cert_id : Z) : string :=
  eud_uid +:+ (Sql.separator +:+ str cert_id).

(** An identifier is [clean] when it does not contain the separator and
    appending the separator to it cannot create an occurrence of the
    separator that starts inside it. *)
Definition clean (uid : string) : bool :=
  negb (Sql.like_infix Sql.separator uid) &&
  negb (Sql.ends_with "::dup" uid) &&
  negb (Sql.ends_with "::dup:" uid).

(** The characters of a string. *)
Definition chars : string → list Ascii.ascii := String.list_ascii_of_string.

(** ** The store *)

(** A column value that the migration copies without looking at it. *)
Inductive sqlval :=
  | SqlNull
  | SqlInt (n : Z)
  | SqlText (s : string).

(** The fourteen columns that an [INSERT INTO euds] of the migration
    copies from the original row ([eud_row[1]] to [eud_row[14]]). *)
Record eud_attrs := {
  callsign : sqlval;
  device : sqlval;
  os : sqlval;
  platform : sqlval;
  version : sqlval;
  phone_number : sqlval;
  last_event_time : sqlval;
  last_status : sqlval;
  user_id : sqlval;
  team_id : sqlval;
  team_role : sqlval;
  meshtastic_id : sqlval;
  meshtastic_macaddr : sqlval;
  last_meshtastic_publish : sqlval }.

(** A row of [euds] without its [uid]: the [id] column ([eud_row[0]]) and
    the copied columns. *)
Record eud := {
  eud_id : Z;
  eud_data : eud_attrs }.

(** The two referencing tables: [certificates] with the column [eud_uid],
    [data_packages] with the column [creator_uid]. *)
Inductive relation := Certificates | DataPackages.

Global Instance relation_eq_dec : EqDecision relation.
Proof. solve_decision. Defined.

(** Modelled from the spec: the schema of the three tables, which is
    declared outside this file.  An endpoint's identifier is "string,
    primary key, globally unique", so [euds] is a map from [uid]; a
    referencing record has "its own identifier (primary key)" and a
    nullable foreign-key column, so each referencing table is a map from
    [id] to that column.  The [id] of a new [euds] row, which the [INSERT]
    statements leave to the database, is drawn from a counter.  The two
    booleans record which of the named unique constraints exist. *)
Record store := {
  euds : gmap string eud;
  euds_id_seq : Z;
  certificates : gmap Z (option string);
  data_packages : gmap Z (option string);
  certificates_eud_uid_key : bool;
  data_packages_creator_uid_key : bool }.

Definition table (R : relation) (s : store) : gmap Z (option string) :=
  match R with
  | Certificates => certificates s
  | DataPackages => data_packages s
  end.

Definition with_table (R : relation) (t : gmap Z (option string)) (s : store)
  : store :=
  match R with
  | Certificates =>
      {| euds := euds s; euds_id_seq := euds_id_seq s;
         certificates := t; data_packages := data_packages s;
         certificates_eud_uid_key := certificates_eud_uid_key s;
         data_packages_creator_uid_key := data_packages_creator_uid_key s |}
  | DataPackages =>
      {| euds := euds s; euds_id_seq := euds_id_seq s;
         certificates := certificates s; data_packages := t;
         certificates_eud_uid_key := certificates_eud_uid_key s;
         data_packages_creator_uid_key := data_packages_creator_uid_key s |}
  end.

Definition with_euds (e : gmap string eud) (next : Z) (s : store) : store :=
  {| euds := e; euds_id_seq := next;
     certificates := certificates s; data_packages := data_packages s;
     certificates_eud_uid_key := certificates_eud_uid_key s;
     data_packages_creator_uid_key := data_packages_creator_uid_key s |}.

(** [unique_key R s]: the constraint [certificates_eud_uid_key], or
    [data_packages_creator_uid_key], exists. *)
Definition unique_key (R : relation) (s : store) : bool :=
  match R with
  | Certificates => certificates_eud_uid_key s
  | DataPackages => data_packages_creator_uid_key s
  end.

Definition with_unique_key (R : relation) (b : bool) (s : store) : store :=
  match R with
  | Certificates =>
      {| euds := euds s; euds_id_seq := euds_id_seq s;
         certificates := certificates s; data_packages := data_packages s;
         certificates_eud_uid_key := b;
         data_packages_creator_uid_key := data_packages_creator_uid_key s |}
  | DataPackages =>
      {| euds := euds s; euds_id_seq := euds_id_seq s;
         certificates := certificates s; data_packages := data_packages s;
         certificates_eud_uid_key := certificates_eud_uid_key s;
         data_packages_creator_uid_key := b |}
  end.

(** ** The statements *)

(** What a statement can raise.  [DuplicateKey], [ConstraintAbsent],
    [SyntaxError] and [InFailedSqlTransaction] are the database's answers
    to inserting a second row with an existing [uid], to dropping a
    constraint that does not exist, to a statement that its grammar does
    not have, and to any statement sent after one that failed in the same
    transaction.  [IndexError] is Python's, for [cert_ids[0]] on an empty
    list.  [NotFoundError] and [ConstraintViolation] belong to the taxonomy
    of the migration's description; no statement here raises them. *)
Inductive error :=
  | NotFoundError
  | ConstraintViolation
  | ConstraintAbsent
  | DuplicateKey
  | SyntaxError
  | InFailedSqlTransaction
  | IndexError.

Inductive result (A : Type) :=
  | Ok (a : A)
  | Err (e : error).
Arguments Ok {A} a.
Arguments Err {A} e.

(** [SELECT id FROM t WHERE fk = uid], in ascending order of [id]
    ([array_agg(id ORDER BY id)]). *)
Definition array_agg_ids (t : gmap Z (option string)) (uid : string) : list Z :=
  merge_sort Z.le (map_to_list (filter (λ r, r.2 = Some uid) t)).*1.

(** The values of [GROUP BY fk] under [WHERE fk IS NOT NULL]. *)
Definition group_keys (t : gmap Z (option string)) : list string :=
  remove_dups (omap snd (map_to_list t)).

(** The query of lines 97-105 and 174-182:
    [SELECT fk, array_agg(id ORDER BY id) FROM t WHERE fk IS NOT NULL
     GROUP BY fk HAVING count > 1].  SQL leaves the order of the groups
    open; they come here in the order in which the map lists its rows. *)
Definition select_dup_groups (t : gmap Z (option string))
  : list (string * list Z) :=
  filter (λ row, 1 < length row.2)
         ((λ uid, (uid, array_agg_ids t uid)) <$> group_keys t).

(** [INSERT INTO euds (uid, callsign, ...) VALUES (:uid, :callsign, ...)]
    with the columns of [eud_row] (lines 132-161 and 216-245).  The [uid]
    is unique in [euds]: a second row with it is refused. *)
Definition insert_eud (uid : string) (eud_row : eud) (s : store)
  : result store :=
  match euds s !! uid with
  | Some _ => Err DuplicateKey
  | None =>
      Ok (with_euds
            (<[uid := {| eud_id := euds_id_seq s;
                         eud_data := eud_data eud_row |}]> (euds s))
            (euds_id_seq s + 1) s)
  end.

(** [UPDATE t SET fk = :new_uid WHERE id = :id] (lines 164-171 and
    248-255); without a row of that [id] it changes nothing. *)
Definition update_fk (R : relation) (uid : string) (id : Z) (s : store)
  : result store :=
  Ok (with_table R (alter (λ _, Some uid) id (table R s)) s).

(** No two records hold the same non-null value. *)
Definition fk_unique (t : gmap Z (option string)) : Prop :=
  map_Forall (λ i x, map_Forall (λ j y, is_Some x → x = y → i = j) t) t.

Global Instance fk_unique_dec t : Decision (fk_unique t).
Proof. unfold fk_unique. apply _. Defined.

(** [ALTER TABLE t ADD CONSTRAINT t_fk_key UNIQUE (fk) WHERE fk IS NOT NULL]
    (lines 258-268).  In PostgreSQL's grammar a [UNIQUE] table constraint
    takes no [WHERE] (only [EXCLUDE] constraints and [CREATE INDEX] do): the
    statement is refused when it is parsed, whatever the table holds and
    whether or not a constraint of that name exists. *)
Definition add_unique (R : relation) (s : store) : result store :=
  Err SyntaxError.

(** [ALTER TABLE t DROP CONSTRAINT t_fk_key] (lines 283-297). *)
Definition drop_unique (R : relation) (s : store) : result store :=
  if unique_key R s then Ok (with_unique_key R false s)
  else Err ConstraintAbsent.

(** [UPDATE t SET fk = SUBSTRING(fk FROM 1 FOR POSITION('::dup::' IN fk) - 1)
     WHERE fk LIKE '%::dup::%'] (lines 300-310). *)
Definition restore_fk (fk : option string) : option string :=
  match fk with
  | Some uid =>
      if Sql.like_infix Sql.separator uid then Some (Sql.orig_uid uid)
      else Some uid
  | None => None
  end.

Definition restore_fks (R : relation) (s : store) : result store :=
  Ok (with_table R (restore_fk <$> table R s) s).

(** [DELETE FROM euds WHERE uid LIKE '%::dup::%'] (lines 313-316). *)
Definition delete_clones (s : store) : result store :=
  Ok (with_euds
        (filter (λ r, Sql.like_infix Sql.separator r.1 = false) (euds s))
        (euds_id_seq s) s).

(** ** Programs over the connection *)

(** A run of a program from a store: the stores after each statement that
    was executed, in order, and the outcome. *)
Record run (A : Type) := Run {
  trace : list store;
  outcome : result (A * store) }.
Arguments Run {A} trace outcome.
Arguments trace {A} r.
Arguments outcome {A} r.

(** A program: a function from the store it starts from to its run. *)
Definition M (A : Type) : Type := store → run A.

Definition ret {A} (a : A) : M A := λ s, Run [] (Ok (a, s)).

Definition raise {A} (e : error) : M A := λ _, Run [] (Err e).

Definition bind {A B} (m : M A) (f : A → M B) : M B := λ s,
  let r := m s in
  match outcome r with
  | Ok (a, s') => let r' := f a s' in Run (trace r ++ trace r') (outcome r')
  | Err e => Run (trace r) (Err e)
  end.

(** [connection.execute] of a statement that writes. *)
Definition exec (stmt : store → result store) : M unit := λ s,
  match stmt s with
  | Ok s' => Run [s'] (Ok (tt, s'))
  | Err e => Run [] (Err e)
  end.

(** [connection.execute(...).fetchone()] or [.fetchall()] of a [SELECT]. *)
Definition query {A} (q : store → A) : M A := λ s, Run [] (Ok (q s, s)).

(** The connection of [op.get_bind()] is inside the transaction that the
    migration runs in.  A statement that fails leaves that transaction
    aborted: until it ends, PostgreSQL refuses every further statement.  A
    program of [M] is a run up to the first exception, so the status of the
    transaction matters only where the code catches one. *)
Inductive transaction := Active | Aborted.

(** [connection.execute] of a statement that writes, when the transaction
    has the status [t]. *)
Definition execute (t : transaction) (stmt : store → result store) : M unit :=
  match t with
  | Active => exec stmt
  | Aborted => raise InFailedSqlTransaction
  end.

(** [try: m  except: pass], with the status in which it leaves the
    transaction.  When [m] raises, the exception is dropped, the store is
    as the last statement that succeeded left it, and the transaction is
    aborted. *)
Definition try_pass (m : M unit) : M transaction := λ s,
  let r := m s in
  match outcome r with
  | Ok (_, s') => Run (trace r) (Ok (Active, s'))
  | Err _ => Run (trace r) (Ok (Aborted, default s (last (trace r))))
  end.

Notation "'let*' x := m 'in' k" := (bind m (λ x, k))
  (at level 10, x name, m at level 100, k at level 200, only parsing).
Notation "m >> k" := (bind m (λ _, k))
  (at level 90, right associativity, only parsing).

(** [for x in l: body(x)]. *)
Fixpoint for_each {X} (l : list X) (body : X → M unit) : M unit :=
  match l with
  | [] => ret tt
  | x :: l' => body x >> for_each l' body
  end.

(** ** The forward pass *)

(** The body of the inner loop.  The certificates loop (lines 128-171)
    inserts the clone and repoints the certificate; the data_packages loop
    (lines 205-255) first asks whether the clone is there
    ([SELECT 1 FROM euds WHERE uid = :uid]) and inserts only if not. *)
Definition clone_and_reassign (R : relation) (eud_uid : string) (eud_row : eud)
    (cert_id : Z) : M unit :=
  let new_uid := new_uid eud_uid cert_id in
  match R with
  | Certificates => exec (insert_eud new_uid eud_row)
  | DataPackages =>
      let* existing := query (λ s, euds s !! new_uid) in
      match existing with
      | Some _ => ret tt
      | None => exec (insert_eud new_uid eud_row)
      end
  end >>
  exec (update_fk R new_uid cert_id).

(** The body of the outer loop (lines 108-171 and 185-255), for one
    [row = (eud_uid, cert_ids)] of the duplicates query. *)
Definition split_group (R : relation) (row : string * list Z) : M unit :=
  let eud_uid := row.1 in
  let cert_ids := row.2 in
  match cert_ids with
  | [] => raise IndexError
  | keep_cert_id :: dup_cert_ids =>
      let* eud_row := query (λ s, euds s !! eud_uid) in
      match eud_row with
      | Some eud_row =>
          for_each dup_cert_ids (clone_and_reassign R eud_uid eud_row)
      | None => ret tt
      end
  end.

(** Steps 1-2 and step 3: the duplicates query of a table and its loop. *)
Definition split_relation (R : relation) : M unit :=
  let* dups := query (λ s, select_dup_groups (table R s)) in
  for_each dups (split_group R).

(** Lines 97-255. *)
Definition reconcile : M unit :=
  split_relation Certificates >>
  split_relation DataPackages.

(** Step 4 (lines 257-268). *)
Definition add_unique_constraints : M unit :=
  exec (add_unique Certificates) >>
  exec (add_unique DataPackages).

(** [upgrade()], lines 24-270.  No exception is caught, so every statement
    is sent in an active transaction.  The final [connection.commit()]
    changes nothing here. *)
Definition upgrade : M unit :=
  reconcile >>
  add_unique_constraints.

(** ** The reversal *)

(** [downgrade()], lines 273-318: drop the two constraints, each inside
    [try: ... except: pass], rewrite the foreign keys of the two tables,
    delete the clones.  The transaction is active when the pass starts; the
    final [connection.commit()] changes nothing here. *)
Definition downgrade : M unit :=
  let* t := try_pass (execute Active (drop_unique Certificates)) in
  let* t := try_pass (execute t (drop_unique DataPackages)) in
  execute t (restore_fks Certificates) >>
  execute t (restore_fks DataPackages) >>
  execute t delete_clones.

(** ** Specifications of runs *)

(** [triple P m I Q E]: from a store that satisfies [P], every store that
    the run of [m] writes satisfies [I]; if the run returns, its result and
    store satisfy [Q]; if it raises, the error satisfies [E]. *)
Definition triple {A} (P : store → Prop) (m : M A) (I : store → Prop)
    (Q : A → store → Prop) (E : error → Prop) : Prop :=
  ∀ s, P s →
    Forall I (trace (m s)) ∧
    match outcome (m s) with
    | Ok (a, s') => Q a s'
    | Err e => E e
    end.

(** ** What the statements keep *)

(** [refs_same s s']: the referencing tables and the constraints of [s']
    are those of [s]. *)
Definition refs_same (s s' : store) : Prop :=
  (∀ R, table R s' = table R s) ∧ (∀ R, unique_key R s' = unique_key R s).

(** [euds_extend s s']: [s'] has every endpoint of [s], unchanged, and
    every further endpoint of [s'] has a clone uid and the copied columns
    of the endpoint it was cloned from. *)
Definition euds_extend (s s' : store) : Prop :=
  (∀ u e, euds s !! u = Some e → euds s' !! u = Some e) ∧
  (∀ u c, euds s' !! u = Some c → euds s !! u = None →
     ∃ g i e, u = new_uid g i ∧ euds s' !! g = Some e ∧
              eud_data c = eud_data e).

(** ** Invariants of the loops of the forward pass *)

(** No statement of either pass raises [NotFoundError]. *)
Definition no_not_found (e : error) : Prop := e ≠ NotFoundError.

(** While the inner loop of the group of [g] runs from [s1]: the
    endpoints only grow by clones, the other table and the constraints
    stay, and exactly the records in [done] point to their clones. *)
Definition reassigned (R : relation) (g : string) (s1 : store) (done : list Z)
    (s : store) : Prop :=
  euds_extend s1 s ∧
  (∀ R', R' ≠ R → table R' s = table R' s1) ∧
  (∀ R', unique_key R' s = unique_key R' s1) ∧
  (∀ i, i ∉ done → table R s !! i = table R s1 !! i) ∧
  (∀ i, i ∈ done →
     table R s !! i = (λ _, Some (new_uid g i)) <$> table R s1 !! i ∧
     is_Some (euds s !! new_uid g i)).

(** What the outer loop's body does to the store [s1] it starts from. *)
Definition group_step (R : relation) (g : string) (ids : list Z)
    (s1 s' : store) : Prop :=
  (euds s1 !! g = None → s' = s1) ∧
  (∀ row, euds s1 !! g = Some row → reassigned R g s1 (tail ids) s').

(** The two ways a group can be left: all its records still point to
    [g] (the group was skipped), or the first keeps [g], which has an
    endpoint, and each other points to its clone, which has one too. *)
Definition kept (R : relation) (g : string) (ids : list Z) (s : store)
  : Prop :=
  ∀ i, i ∈ ids → table R s !! i = Some (Some g).

Definition split_done (R : relation) (g : string) (ids : list Z) (s : store)
  : Prop :=
  ∃ k rest row,
    ids = k :: rest ∧ table R s !! k = Some (Some g) ∧
    euds s !! g = Some row ∧
    ∀ i, i ∈ rest →
      table R s !! i = Some (Some (new_uid g i)) ∧
      is_Some (euds s !! new_uid g i).

Definition settled (R : relation) (g : string) (ids : list Z) (s : store)
  : Prop :=
  kept R g ids s ∨ split_done R g ids s.

(** The invariant of the outer loop, started from [sa], when the groups
    of [done] have been visited. *)
Definition relation_inv (R : relation) (sa : store)
    (done : list (string * list Z)) (s : store) : Prop :=
  euds_extend sa s ∧
  (∀ R', R' ≠ R → table R' s = table R' sa) ∧
  (∀ R', unique_key R' s = unique_key R' sa) ∧
  (∀ i, (∀ g ids, (g, ids) ∈ done → i ∉ ids) →
        table R s !! i = table R sa !! i) ∧
  (∀ g ids, (g, ids) ∈ done → settled R g ids s).

(** ** Summaries of the forward pass *)

(** A record is outside the duplicate groups of a table. *)
Definition ungrouped (t : gmap Z (option string)) (i : Z) : Prop :=
  ∀ g ids, (g, ids) ∈ select_dup_groups t → i ∉ ids.

(** The store after steps 1-3, from [s0]. *)
Definition reconciled (s0 s' : store) : Prop :=
  euds_extend s0 s' ∧
  (∀ R, unique_key R s' = unique_key R s0) ∧
  ∀ R, (∀ i, ungrouped (table R s0) i → table R s' !! i = table R s0 !! i) ∧
       (∀ g ids, (g, ids) ∈ select_dup_groups (table R s0) →
                 settled R g ids s').

(** Every group of the list whose uid has an endpoint in [s0] has been
    split in [s]. *)
Definition all_split (R : relation) (s0 : store)
    (groups : list (string * list Z)) (s : store) : Prop :=
  ∀ g ids, (g, ids) ∈ groups → is_Some (euds s0 !! g) → split_done R g ids s.

(** The store after steps 1-3, from [s0], with what became of the groups
    whose uid had an endpoint. *)
Definition all_groups_split (s0 s' : store) : Prop :=
  reconciled s0 s' ∧
  ∀ R, all_split R s0 (select_dup_groups (table R s0)) s'.

(** ** References to endpoints while the forward pass runs *)

(** [no_new_dangling s0 s]: a record of [s] whose foreign-key value has no
    endpoint row held that value in [s0] already, where it had no endpoint
    row either. *)
Definition no_new_dangling (s0 s : store) : Prop :=
  ∀ R i v, table R s !! i = Some (Some v) → euds s !! v = None →
    table R s0 !! i = Some (Some v) ∧ euds s0 !! v = None.

(** [keeps_references s0 m]: from a store with the property, every store
    that a run of [m] writes has it, and so has the store it returns. *)
Definition keeps_references (s0 : store) (m : M unit) : Prop :=
  triple (no_new_dangling s0) m (no_new_dangling s0)
         (λ _, no_new_dangling s0) (λ _, True).

(** [clone_refs_resolved s]: every foreign-key value of [s] that contains
    the separator has an endpoint row. *)
Definition clone_refs_resolved (s : store) : Prop :=
  ∀ R i v, table R s !! i = Some (Some v) →
    Sql.like_infix Sql.separator v = true → is_Some (euds s !! v).

(** ** Example stores *)

Definition named (name : string) : eud_attrs :=
  {| callsign := SqlText name; device := SqlText "phone"; os := SqlText "29";
     platform := SqlText "ATAK-CIV"; version := SqlText "5.1";
     phone_number := SqlNull;
     last_event_time := SqlText "2026-02-01 10:00:00";
     last_status := SqlText "Connected"; user_id := SqlInt 7;
     team_id := SqlInt 1; team_role := SqlText "Team Member";
     meshtastic_id := SqlNull; meshtastic_macaddr := SqlNull;
     last_meshtastic_publish := SqlNull |}.

Definition alpha (id : Z) : eud :=
  {| eud_id := id; eud_data := named "ALPHA" |}.

Definition bravo (id : Z) : eud :=
  {| eud_id := id; eud_data := named "BRAVO" |}.

(** Endpoint [E1], referenced by the certificates 1 and 2. *)
Definition scenario : store :=
  {| euds := {[ "E1" := alpha 1 ]};
     euds_id_seq := 2;
     certificates := {[ 1%Z := Some "E1"; 2%Z := Some "E1" ]};
     data_packages := ∅;
     certificates_eud_uid_key := false;
     data_packages_creator_uid_key := false |}.

(** [scenario] after the insert of the clone, and after the update of
    certificate 2. *)
Definition scenario_cloned : store :=
  {| euds := {[ "E1" := alpha 1; "E1::dup::2" := alpha 2 ]};
     euds_id_seq := 3;
     certificates := {[ 1%Z := Some "E1"; 2%Z := Some "E1" ]};
     data_packages := ∅;
     certificates_eud_uid_key := false;
     data_packages_creator_uid_key := false |}.

Definition scenario_split : store :=
  {| euds := {[ "E1" := alpha 1; "E1::dup::2" := alpha 2 ]};
     euds_id_seq := 3;
     certificates := {[ 1%Z := Some "E1"; 2%Z := Some "E1::dup::2" ]};
     data_packages := ∅;
     certificates_eud_uid_key := false;
     data_packages_creator_uid_key := false |}.

(** [scenario_split] in a database that has both unique constraints, and
    what the reversal makes of it. *)
Definition scenario_constrained : store :=
  {| euds := {[ "E1" := alpha 1; "E1::dup::2" := alpha 2 ]};
     euds_id_seq := 3;
     certificates := {[ 1%Z := Some "E1"; 2%Z := Some "E1::dup::2" ]};
     data_packages := ∅;
     certificates_eud_uid_key := true;
     data_packages_creator_uid_key := true |}.

Definition scenario_downgraded : store :=
  {| euds := {[ "E1" := alpha 1 ]};
     euds_id_seq := 3;
     certificates := {[ 1%Z := Some "E1"; 2%Z := Some "E1" ]};
     data_packages := ∅;
     certificates_eud_uid_key := false;
     data_packages_creator_uid_key := false |}.

(** [scenario] with a third certificate, whose value has the form of a
    clone uid and no endpoint row. *)
Definition dangling0 : store :=
  {| euds := {[ "E1" := alpha 1 ]};
     euds_id_seq := 2;
     certificates := {[ 1%Z := Some "E1"; 2%Z := Some "E1";
                        3%Z := Some "X::dup::9" ]};
     data_packages := ∅;
     certificates_eud_uid_key := false;
     data_packages_creator_uid_key := false |}.


(** Two certificates that share an [eud_uid] without a row in [euds]. *)
Definition missing_endpoint : store :=
  {| euds := ∅;
     euds_id_seq := 1;
     certificates := {[ 1%Z := Some "E1"; 2%Z := Some "E1" ]};
     data_packages := ∅;
     certificates_eud_uid_key := false;
     data_packages_creator_uid_key := false |}.

(** The uid of the clone for record 2 is taken, by an endpoint with other
    columns: once with the duplicates in [certificates], once with the
    duplicates in [data_packages]. *)
Definition taken_certificates : store :=
  {| euds := {[ "E1" := alpha 1; "E1::dup::2" := bravo 2 ]};
     euds_id_seq := 3;
     certificates := {[ 1%Z := Some "E1"; 2%Z := Some "E1" ]};
     data_packages := ∅;
     certificates_eud_uid_key := false;
     data_packages_creator_uid_key := false |}.

Definition taken_data_packages : store :=
  {| euds := {[ "E1" := alpha 1; "E1::dup::2" := bravo 2 ]};
     euds_id_seq := 3;
     certificates := ∅;
     data_packages := {[ 1%Z := Some "E1"; 2%Z := Some "E1" ]};
     certificates_eud_uid_key := false;
     data_packages_creator_uid_key := false |}.

Definition taken_data_packages_split : store :=
  {| euds := {[ "E1" := alpha 1; "E1::dup::2" := bravo 2 ]};
     euds_id_seq := 3;
     certificates := ∅;
     data_packages := {[ 1%Z := Some "E1"; 2%Z := Some "E1::dup::2" ]};
     certificates_eud_uid_key := false;
     data_packages_creator_uid_key := false |}.

(** ** The properties as the description states them *)

(** The value of a foreign-key column does not contain the separator,
    respectively is [clean]. *)
Definition sep_free_fk (fk : option string) : bool :=
  match fk with
  | Some v => negb (Sql.like_infix Sql.separator v)
  | None => true
  end.

Definition clean_fk (fk : option string) : bool :=
  match fk with
  | Some v => clean v
  | None => true
  end.

(** No endpoint uid of the store contains the separator. *)
Definition euds_sep_free (s : store) : Prop :=
  map_Forall (λ u _, Sql.like_infix Sql.separator u = false) (euds s).

(** No foreign-key value of the store contains the separator. *)
Definition fks_sep_free (s : store) : Prop :=
  ∀ R, map_Forall (λ _ fk, sep_free_fk fk = true) (table R s).

(** The failure the description asks for: a duplicate group whose shared
    uid has no endpoint row makes the forward pass raise [NotFoundError]. *)
Definition missing_endpoint_aborts (s : store) : Prop :=
  ∀ R g ids,
    (g, ids) ∈ select_dup_groups (table R s) → euds s !! g = None →
    outcome (upgrade s) = Err NotFoundError.


(** What the description says of every duplicate group, when steps 1-3
    have run: the first record keeps its value, and every other record
    points to a clone that the pass has inserted with the columns of the
    original endpoint. *)
Definition groups_cloned (s : store) : Prop :=
  ∀ s' R g k rest,
    outcome (reconcile s) = Ok (tt, s') →
    (g, k :: rest) ∈ select_dup_groups (table R s) →
    table R s' !! k = Some (Some g) ∧
    ∀ i, i ∈ rest →
      table R s' !! i = Some (Some (new_uid g i)) ∧
      euds s !! new_uid g i = None ∧
      ∃ e c, euds s !! g = Some e ∧ euds s' !! new_uid g i = Some c ∧
             eud_data c = eud_data e.

(** What the description says of the stores that the forward pass goes
    through: no record holds a value of clone form without an endpoint
    row. *)
Definition never_dangles (s : store) : Prop :=
  Forall clone_refs_resolved (trace (upgrade s)).

(** [cut_at_separator s s']: the tables and endpoints of [s'] are those of
    [s] with every foreign-key value that contains the separator cut
    before its first occurrence, and without the endpoints whose uid
    contains it. *)
Definition cut_at_separator (s s' : store) : Prop :=
  (∀ R i v, table R s !! i = Some (Some v) →
     Sql.like_infix Sql.separator v = true →
     ∃ p q, v = p +:+ (Sql.separator +:+ q) ∧
            (∀ p' q', v = p' +:+ (Sql.separator +:+ q') →
                      String.length p ≤ String.length p') ∧
            table R s' !! i = Some (Some p)) ∧
  (∀ R i fk, table R s !! i = Some fk → sep_free_fk fk = true →
     table R s' !! i = Some fk) ∧
  (∀ u, Sql.like_infix Sql.separator u = true → euds s' !! u = None) ∧
  (∀ u, Sql.like_infix Sql.separator u = false →
        euds s' !! u = euds s !! u).

(** The reversal as the description has it: it returns, with the
    foreign-key values cut and the clones deleted. *)
Definition reversal_syntactic (s : store) : Prop :=
  ∃ s', outcome (downgrade s) = Ok (tt, s') ∧ cut_at_separator s s'.

(** ** Further specifications *)

(** One endpoint with two certificates and two data packages, the ids 1
    and 2 in both tables. *)
Definition shared : store :=
  {| euds := {[ "E1" := alpha 1 ]};
     euds_id_seq := 2;
     certificates := {[ 1%Z := Some "E1"; 2%Z := Some "E1" ]};
     data_packages := {[ 1%Z := Some "E1"; 2%Z := Some "E1" ]};
     certificates_eud_uid_key := false;
     data_packages_creator_uid_key := false |}.

(** [shared] after steps 1-3: one clone for both records 2. *)
Definition shared_split : store :=
  {| euds := {[ "E1" := alpha 1; "E1::dup::2" := alpha 2 ]};
     euds_id_seq := 3;
     certificates := {[ 1%Z := Some "E1"; 2%Z := Some "E1::dup::2" ]};
     data_packages := {[ 1%Z := Some "E1"; 2%Z := Some "E1::dup::2" ]};
     certificates_eud_uid_key := false;
     data_packages_creator_uid_key := false |}.

(** The store that the reversal returns, when it returns. *)
Definition downgrade_store (s : store) : store :=
  {| euds := filter (λ r, Sql.like_infix Sql.separator r.1 = false) (euds s);
     euds_id_seq := euds_id_seq s;
     certificates := restore_fk <$> certificates s;
     data_packages := restore_fk <$> data_packages s;
     certificates_eud_uid_key := false;
     data_packages_creator_uid_key := false |}.

(** [clone_of t0 i u]: in the table [t0], record [i] is a later member of a
    duplicate group, and [u] is the uid of its clone. *)
Definition clone_of (t0 : gmap Z (option string)) (i : Z) (u : string)
  : Prop :=
  ∃ g k rest,
    (g, k :: rest) ∈ select_dup_groups t0 ∧ i ∈ rest ∧ u = new_uid g i.

(** [progress s0 s]: [s] has the endpoints of [s0], unchanged; every other
    endpoint of [s] is the clone of a later member of a group of [s0]; and
    every record has the value it has in [s0] or, if it is a later member
    of a group, the uid of its clone. *)
Definition progress (s0 s : store) : Prop :=
  (∀ u e, euds s0 !! u = Some e → euds s !! u = Some e) ∧
  (∀ u, is_Some (euds s !! u) → euds s0 !! u = None →
        ∃ R i, clone_of (table R s0) i u) ∧
  (∀ R i, table R s !! i = table R s0 !! i ∨
          ∃ u, clone_of (table R s0) i u ∧ table R s !! i = Some (Some u)).

(** [keeps_progress s0 m]: [m] keeps [progress s0], in every store it
    writes and however it ends. *)
Definition keeps_progress (s0 : store) (m : M unit) : Prop :=
  triple (progress s0) m (progress s0) (λ _, progress s0) (λ _, True).

(** * Proofs *)

(** ** Facts about the string functions *)

Section string_facts.
Import Sql.

Lemma starts_with_app p s : starts_with p (p +:+ s) = true.
Proof.
  induction p as [|a p IH]; simpl; [done|].
  by rewrite Ascii.eqb_refl, IH.
Qed.

Lemma starts_with_inv p s :
  starts_with p s = true → ∃ r, s = p +:+ r.
Proof.
  revert s. induction p as [|a p IH]; intros s H; simpl in *.
  - by exists s.
  - destruct s as [|b s]; [done|].
    apply andb_true_iff in H as [Hab H].
    apply Ascii.eqb_eq in Hab as ->.
    destruct (IH _ H) as [r ->]. by exists r.
Qed.

Lemma like_infix_starts sub s :
  starts_with sub s = true → like_infix sub s = true.
Proof. destruct s; simpl; by intros ->. Qed.

Lemma like_infix_app sub p q : like_infix sub (p +:+ (sub +:+ q)) = true.
Proof.
  induction p as [|a p IH]; simpl.
  - change (like_infix sub (sub +:+ q) = true).
    apply like_infix_starts, starts_with_app.
  - rewrite IH. apply orb_true_r.
Qed.

Lemma like_infix_inv sub s :
  like_infix sub s = true → ∃ p q, s = p +:+ (sub +:+ q).
Proof.
  induction s as [|a s IH]; simpl; intros H.
  - rewrite orb_false_r in H. apply starts_with_inv in H as [r ->].
    by exists EmptyString, r.
  - apply orb_true_iff in H as [H|H].
    + apply starts_with_inv in H as [r ->]. by exists EmptyString, r.
    + destruct (IH H) as (p & q & ->). by exists (String a p), q.
Qed.

Lemma like_infix_position sub s :
  like_infix sub s = negb (Nat.eqb (position sub s) 0).
Proof.
  induction s as [|a s IH]; simpl.
  - by destruct (starts_with sub EmptyString).
  - destruct (starts_with sub (String a s)); [done|]. simpl.
    rewrite IH. by destruct (position sub s).
Qed.

Lemma substring_for_app p q : substring_for (String.length p) (p +:+ q) = p.
Proof.
  induction p as [|a p IH]; simpl.
  - by destruct q.
  - by rewrite IH.
Qed.

(** The first occurrence: [position] returns the start of an occurrence,
    and no occurrence starts before it. *)
Lemma position_first sub s n :
  position sub s = S n →
  ∃ p q, s = p +:+ (sub +:+ q) ∧ String.length p = n ∧
         ∀ p' q', s = p' +:+ (sub +:+ q') → n ≤ String.length p'.
Proof.
  revert n. induction s as [|a s IH]; intros n; simpl.
  - destruct (starts_with sub EmptyString) eqn:Hs; [|done].
    intros [= <-]. apply starts_with_inv in Hs as [r Hr].
    exists EmptyString, r. split_and!; [done..|]. intros; lia.
  - destruct (starts_with sub (String a s)) eqn:Hs.
    + intros [= <-]. apply starts_with_inv in Hs as [r ->].
      exists EmptyString, r. split_and!; [done..|]. intros; lia.
    + destruct (position sub s) as [|k] eqn:Hk; [done|].
      intros [= <-]. destruct (IH _ eq_refl) as (p & q & -> & Hlen & Hmin).
      exists (String a p), q. split_and!; [done|by simpl; f_equal|].
      intros [|b p'] q' Heq; simpl in *.
      * change (EmptyString +:+ sub +:+ q') with (sub +:+ q') in Heq.
        rewrite Heq, starts_with_app in Hs. done.
      * injection Heq as -> Heq. apply Hmin in Heq. lia.
Qed.

Lemma like_infix_tail sub a s :
  like_infix sub (String a s) = false → like_infix sub s = false.
Proof. simpl. intros H. by apply orb_false_iff in H as [_ ?]. Qed.

Lemma ends_with_tail suf a s :
  ends_with suf (String a s) = false → ends_with suf s = false.
Proof. simpl. intros H. by apply orb_false_iff in H as [_ ?]. Qed.

Lemma clean_true uid :
  clean uid = true ↔
  like_infix separator uid = false ∧ ends_with "::dup" uid = false ∧
  ends_with "::dup:" uid = false.
Proof.
  unfold clean. rewrite !andb_true_iff, !negb_true_iff. tauto.
Qed.

Lemma clean_tail a s : clean (String a s) = true → clean s = true.
Proof.
  rewrite !clean_true. intros (H1 & H2 & H3).
  split_and!; eauto using like_infix_tail, ends_with_tail.
Qed.

Local Arguments Ascii.eqb : simpl never.

(** No occurrence of the separator starts inside a clean identifier that
    is followed by the separator. *)
Lemma clean_no_early_start a s t :
  clean (String a s) = true →
  starts_with separator (String a s +:+ (separator +:+ t)) = false.
Proof.
  intros (H1 & H2 & H3)%clean_true.
  destruct (starts_with _ _) eqn:Hs; [exfalso|done].
  revert H1 H2 H3 Hs. unfold separator.
  destruct s as [|c2 [|c3 [|c4 [|c5 [|c6 [|c7 s]]]]]];
    cbv beta iota fix delta [String.append]; simpl; intros H1 H2 H3 Hs;
    repeat (apply andb_true_iff in Hs as [?%Ascii.eqb_eq Hs]); simplify_eq;
    rewrite ?Ascii.eqb_refl in *; simpl in *; done.
Qed.

Lemma position_clean g t :
  clean g = true →
  position separator (g +:+ (separator +:+ t)) = S (String.length g).
Proof.
  induction g as [|a g IH]; intros Hg.
  - done.
  - change (position separator (String a g +:+ (separator +:+ t)))
      with (if starts_with separator (String a g +:+ (separator +:+ t))
            then 1
            else match position separator (g +:+ (separator +:+ t)) with
                 | 0 => 0 | S p => S (S p) end).
    rewrite clean_no_early_start by done.
    rewrite IH by eauto using clean_tail. done.
Qed.

End string_facts.

(** ** The clone uid *)

Section new_uid_facts.
Import Sql.

Lemma like_infix_new_uid g i : like_infix separator (new_uid g i) = true.
Proof. apply like_infix_app. Qed.

(** Truncating a clone uid at the separator gives back a clean original. *)
Lemma orig_uid_new_uid g i : clean g = true → orig_uid (new_uid g i) = g.
Proof.
  intros Hg. unfold orig_uid, new_uid. rewrite position_clean by done.
  replace (S (String.length g) - 1) with (String.length g) by lia.
  apply substring_for_app.
Qed.

Lemma append_cons_ne g c r : g +:+ String c r ≠ g.
Proof.
  intros H. apply (f_equal String.length) in H. revert H.
  induction g as [|a g IH]; simpl; [done|]. intros [= H]. auto.
Qed.

Lemma new_uid_ne g i : new_uid g i ≠ g.
Proof. apply append_cons_ne. Qed.

Lemma chars_app a b : chars (a +:+ b) = chars a ++ chars b.
Proof. induction a as [|c a IH]; simpl; [done|]. by rewrite IH. Qed.

Lemma chars_inj a b : chars a = chars b → a = b.
Proof.
  intros H. apply (f_equal String.string_of_list_ascii) in H.
  unfold chars in H. by rewrite !String.string_of_list_ascii_of_string in H.
Qed.

(** Python prints an [int] with the digits and a leading minus sign only. *)
Lemma string_of_uint_no_colon d :
  ":"%char ∉ chars (NilEmpty.string_of_uint d).
Proof.
  induction d; simpl; [apply not_elem_of_nil|..];
    rewrite elem_of_cons; intros [?|?]; done.
Qed.

Lemma str_no_colon z : ":"%char ∉ chars (str z).
Proof.
  unfold str. destruct (Z.to_int z); simpl.
  - apply string_of_uint_no_colon.
  - rewrite elem_of_cons. intros [?|?]; [done|].
    by eapply string_of_uint_no_colon.
Qed.

Lemma str_inj a b : str a = str b → a = b.
Proof.
  unfold str. intros H.
  assert (Some (Z.to_int a) = Some (Z.to_int b)) as [= Hab]
    by (by rewrite <- !NilEmpty.isi, H).
  by rewrite <- (DecimalZ.of_to a), <- (DecimalZ.of_to b), Hab.
Qed.

(** Two splits of one list at a character that occurs in neither tail
    are the same split. *)
Lemma split_at_last {A} (c : A) l1 l2 d1 d2 :
  l1 ++ c :: d1 = l2 ++ c :: d2 → c ∉ d1 → c ∉ d2 → l1 = l2 ∧ d1 = d2.
Proof.
  revert l2. induction l1 as [|x l1 IH]; intros [|y l2] H H1 H2;
    simpl in H.
  - by injection H as ->.
  - injection H as -> ->. exfalso. apply H1.
    rewrite elem_of_app, elem_of_cons. auto.
  - injection H as -> <-. exfalso. apply H2.
    rewrite elem_of_app, elem_of_cons. auto.
  - injection H as -> H. pose proof (IH _ H H1 H2) as [? ?]. by subst.
Qed.

Lemma clone_uid_split o1 r1 o2 r2 :
  new_uid o1 r1 = new_uid o2 r2 → o1 = o2 ∧ r1 = r2.
Proof.
  intros H. apply (f_equal chars) in H. unfold new_uid in H.
  rewrite !chars_app in H.
  assert ((chars o1 ++ chars "::dup:") ++ ":"%char :: chars (str r1)
          = (chars o2 ++ chars "::dup:") ++ ":"%char :: chars (str r2))
    as H' by (rewrite <- !(assoc_L (++)); exact H).
  apply split_at_last in H' as [Ho Hr]; [|apply str_no_colon..].
  apply app_inv_tail in Ho.
  split; [by apply chars_inj | by apply str_inj, chars_inj].
Qed.

End new_uid_facts.

(** ** Rules for [triple] *)

Section rules.
Context {A : Type}.
Implicit Types (P I : store → Prop) (Q : A → store → Prop)
  (E : error → Prop).

Lemma triple_ret P I Q E (a : A) :
  (∀ s, P s → Q a s) → triple P (ret a) I Q E.
Proof. intros H s Hs. split; [constructor|]. by apply H. Qed.

Lemma triple_raise P I Q E e : E e → triple P (raise e) I Q E.
Proof. intros H s Hs. split; [constructor|done]. Qed.

Lemma triple_query P I Q E (q : store → A) :
  (∀ s, P s → Q (q s) s) → triple P (query q) I Q E.
Proof. intros H s Hs. split; [constructor|]. by apply H. Qed.

Lemma triple_conseq P P' I I' Q Q' E E' (m : M A) :
  triple P m I Q E →
  (∀ s, P' s → P s) → (∀ s, I s → I' s) →
  (∀ a s, Q a s → Q' a s) → (∀ e, E e → E' e) →
  triple P' m I' Q' E'.
Proof.
  intros H HP HI HQ HE s Hs. destruct (H s (HP _ Hs)) as [Ht Ho]. split.
  - eapply Forall_impl; eauto.
  - destruct (outcome (m s)) as [[a s']|e]; auto.
Qed.

(** The pre-state can be named. *)
Lemma triple_from P I Q E (m : M A) :
  (∀ s0, P s0 → triple (eq s0) m I Q E) → triple P m I Q E.
Proof. intros H s Hs. by apply (H s). Qed.

Lemma triple_bind {B} P I Q (R : B → store → Prop) E (m : M A)
    (f : A → M B) :
  triple P m I Q E → (∀ a, triple (Q a) (f a) I R E) →
  triple P (bind m f) I R E.
Proof.
  intros Hm Hf s Hs. destruct (Hm s Hs) as [Ht Ho]. unfold bind.
  destruct (outcome (m s)) as [[a s']|e]; simpl; [|done].
  destruct (Hf a s' Ho) as [Ht' Ho']. split; [|done].
  by apply Forall_app.
Qed.

End rules.

Lemma triple_exec P I (Q : unit → store → Prop) E stmt :
  (∀ s, P s → match stmt s with
              | Ok s' => I s' ∧ Q tt s'
              | Err e => E e
              end) →
  triple P (exec stmt) I Q E.
Proof.
  intros H s Hs. specialize (H s Hs). unfold exec.
  destruct (stmt s) as [s'|e]; simpl.
  - destruct H. by split; [repeat constructor|].
  - by split; [constructor|].
Qed.

(** The loop rule: the invariant knows which elements are done and which
    are still to do. *)
Lemma triple_for_each {X} (Inv : list X → list X → store → Prop) I E
    (body : X → M unit) (l : list X) :
  (∀ done x todo, l = done ++ x :: todo →
     triple (Inv done (x :: todo)) (body x) I
            (λ _, Inv (done ++ [x]) todo) E) →
  triple (Inv [] l) (for_each l body) I (λ _, Inv l []) E.
Proof.
  intros Hbody.
  assert (∀ todo done, l = done ++ todo →
            triple (Inv done todo) (for_each todo body) I (λ _, Inv l []) E)
    as H; [|by apply (H l [])].
  induction todo as [|x todo IH]; intros done Hl; simpl.
  - apply triple_ret. intros s Hs. by rewrite Hl, app_nil_r.
  - eapply triple_bind; [by apply Hbody|]. intros []. simpl.
    apply IH. by rewrite <- (assoc_L (++)).
Qed.

(** What a returning run says about a triple. *)
Lemma triple_outcome {A} P (m : M A) I Q E s a s' :
  triple P m I Q E → P s → outcome (m s) = Ok (a, s') → Q a s'.
Proof. intros H Hs Ho. destruct (H s Hs) as [_ H']. by rewrite Ho in H'. Qed.

Lemma triple_trace {A} P (m : M A) I Q E s :
  triple P m I Q E → P s → Forall I (trace (m s)).
Proof. intros H Hs. by destruct (H s Hs). Qed.

(** ** Silent steps *)

(** A computation that returns without executing a statement passes the
    store on as it is. *)
Lemma bind_silent {A B} (m : M A) (f : A → M B) s a s' :
  m s = Run [] (Ok (a, s')) → bind m f s = f a s'.
Proof. intros H. unfold bind. rewrite H. simpl. by destruct (f a s'). Qed.

(** ** The duplicates query *)

Lemma array_agg_ids_elem t g i :
  i ∈ array_agg_ids t g ↔ t !! i = Some (Some g).
Proof.
  unfold array_agg_ids. rewrite merge_sort_Permutation, list_elem_of_fmap.
  split.
  - intros ([j x] & -> & H). apply elem_of_map_to_list in H.
    apply map_lookup_filter_Some in H as [H Hx]. simpl in *. by subst.
  - intros H. exists (i, Some g). split; [done|].
    apply elem_of_map_to_list, map_lookup_filter_Some. done.
Qed.

Lemma array_agg_ids_NoDup t g : NoDup (array_agg_ids t g).
Proof.
  unfold array_agg_ids. rewrite merge_sort_Permutation.
  apply NoDup_fst_map_to_list.
Qed.

Lemma array_agg_ids_sorted t g : StronglySorted Z.le (array_agg_ids t g).
Proof. apply StronglySorted_merge_sort; apply _. Qed.

Lemma group_keys_elem t g : g ∈ group_keys t ↔ ∃ i, t !! i = Some (Some g).
Proof.
  unfold group_keys. rewrite elem_of_remove_dups, list_elem_of_omap. split.
  - intros ([i x] & H & Hx). simpl in *. subst. exists i.
    by apply elem_of_map_to_list.
  - intros [i H]. exists (i, Some g). split; [|done].
    by apply elem_of_map_to_list.
Qed.

Lemma select_dup_groups_elem t g ids :
  (g, ids) ∈ select_dup_groups t ↔
  ids = array_agg_ids t g ∧ 1 < length ids.
Proof.
  unfold select_dup_groups. rewrite list_elem_of_filter, list_elem_of_fmap.
  simpl. split.
  - intros (Hlen & g' & [= -> ->] & _). done.
  - intros [-> Hlen]. split; [done|]. exists g. split; [done|].
    apply group_keys_elem.
    destruct (array_agg_ids t g) as [|i ?] eqn:Hids; simpl in *; [lia|].
    exists i. apply array_agg_ids_elem. rewrite Hids. left.
Qed.

Lemma select_dup_groups_NoDup t : NoDup (select_dup_groups t).*1.
Proof.
  unfold select_dup_groups.
  apply (sublist_NoDup _
           (((λ uid, (uid, array_agg_ids t uid)) <$> group_keys t).*1)).
  - rewrite <- list_fmap_compose.
    rewrite (list_fmap_ext _ id) by done.
    rewrite list_fmap_id. apply NoDup_remove_dups.
  - apply fmap_sublist, sublist_filter.
Qed.

Lemma select_dup_groups_complete t g i j :
  t !! i = Some (Some g) → t !! j = Some (Some g) → i ≠ j →
  (g, array_agg_ids t g) ∈ select_dup_groups t.
Proof.
  intros Hi Hj Hij. apply select_dup_groups_elem. split; [done|].
  apply array_agg_ids_elem in Hi, Hj.
  pose proof (array_agg_ids_NoDup t g) as Hnd.
  destruct (array_agg_ids t g) as [|a [|b l]]; simpl; [| |lia].
  - by apply elem_of_nil in Hi.
  - apply list_elem_of_singleton in Hi, Hj. congruence.
Qed.

Lemma fk_unique_lookup t :
  fk_unique t ↔
  ∀ i j v, t !! i = Some (Some v) → t !! j = Some (Some v) → i = j.
Proof.
  unfold fk_unique. split.
  - intros H i j v Hi Hj. by apply (H i (Some v) Hi j (Some v) Hj).
  - intros H i x Hi j y Hj [v ->] <-. eauto.
Qed.

Lemma fk_unique_no_groups t : fk_unique t → select_dup_groups t = [].
Proof.
  rewrite fk_unique_lookup. intros H.
  destruct (select_dup_groups t) as [|[g ids] l] eqn:Heq; [done|].
  assert ((g, ids) ∈ select_dup_groups t) as Hin by (rewrite Heq; left).
  apply select_dup_groups_elem in Hin as [-> Hlen].
  pose proof (array_agg_ids_NoDup t g) as Hnd.
  pose proof (array_agg_ids_elem t g) as Hel.
  destruct (array_agg_ids t g) as [|a [|b l']]; simpl in *; [lia..|].
  assert (a = b) as ->.
  { apply (H _ _ g); apply Hel; rewrite !elem_of_cons; auto. }
  apply NoDup_cons in Hnd as [Hnd _]. destruct Hnd. left.
Qed.

(** Every id of a group but the first is greater than the first. *)
Lemma array_agg_ids_keeper_lowest t g k rest :
  array_agg_ids t g = k :: rest → ∀ i, i ∈ rest → (k < i)%Z.
Proof.
  intros Heq i Hi.
  pose proof (array_agg_ids_sorted t g) as Hs.
  pose proof (array_agg_ids_NoDup t g) as Hn.
  rewrite Heq in Hs, Hn.
  apply StronglySorted_inv in Hs as [_ Hs]. apply NoDup_cons in Hn as [Hn _].
  rewrite Forall_forall in Hs. specialize (Hs i Hi).
  assert (k ≠ i) by (by intros ->). lia.
Qed.

(** ** The statements, one at a time *)

Lemma refs_same_refl s : refs_same s s.
Proof. done. Qed.

Lemma refs_same_trans s1 s2 s3 :
  refs_same s1 s2 → refs_same s2 s3 → refs_same s1 s3.
Proof.
  intros [H1 H2] [H3 H4]. split; intros R; [rewrite H3|rewrite H4]; auto.
Qed.

Lemma euds_extend_refl s : euds_extend s s.
Proof. split; [done|]. intros u c H1 H2. congruence. Qed.

Lemma euds_extend_trans s1 s2 s3 :
  euds_extend s1 s2 → euds_extend s2 s3 → euds_extend s1 s3.
Proof.
  intros [Hm1 Hn1] [Hm2 Hn2]. split; [by auto|].
  intros u c Hc Hu. destruct (euds s2 !! u) as [c2|] eqn:H2.
  - rewrite (Hm2 _ _ H2) in Hc. injection Hc as <-.
    destruct (Hn1 _ _ H2 Hu) as (g & i & e & -> & Hg & Hd).
    exists g, i, e. auto.
  - by apply Hn2.
Qed.

Lemma euds_extend_eq s s' : euds s' = euds s → euds_extend s s'.
Proof. intros H. split; rewrite H; [done|congruence]. Qed.

Lemma insert_eud_ok u row s s' :
  insert_eud u row s = Ok s' →
  euds s !! u = None ∧
  euds s' = <[u := {| eud_id := euds_id_seq s; eud_data := eud_data row |}]>
              (euds s) ∧
  refs_same s s'.
Proof.
  unfold insert_eud. destruct (euds s !! u) eqn:Hu; [done|].
  intros [= <-]. split_and!; [done..|]. by split; intros [].
Qed.

Lemma insert_eud_err u row s e : insert_eud u row s = Err e → e = DuplicateKey.
Proof. unfold insert_eud. destruct (euds s !! u); by intros [= <-]. Qed.

(** Inserting the clone of an endpoint that is there extends the
    endpoints. *)
Lemma insert_eud_extend g i row s s' :
  euds s !! g = Some row → insert_eud (new_uid g i) row s = Ok s' →
  euds_extend s s' ∧ is_Some (euds s' !! new_uid g i).
Proof.
  intros Hg (Hnone & Heq & _)%insert_eud_ok. split; [split|].
  - intros u e Hu. rewrite Heq, lookup_insert_ne; [done|congruence].
  - intros u c Hc Hu. rewrite Heq in Hc.
    destruct (decide (new_uid g i = u)) as [<-|Hne].
    + rewrite lookup_insert_eq in Hc. injection Hc as <-.
      exists g, i, row. split_and!; [done| |done].
      rewrite Heq, lookup_insert_ne; [done|apply new_uid_ne].
    + rewrite lookup_insert_ne in Hc by done. congruence.
  - rewrite Heq, lookup_insert_eq. eauto.
Qed.

Lemma table_with_table R t s : table R (with_table R t s) = t.
Proof. by destruct R. Qed.

Lemma table_with_table_ne R R' t s :
  R' ≠ R → table R' (with_table R t s) = table R' s.
Proof. by destruct R, R'. Qed.

Lemma unique_key_with_table R R' t s :
  unique_key R' (with_table R t s) = unique_key R' s.
Proof. by destruct R, R'. Qed.

Lemma euds_with_table R t s : euds (with_table R t s) = euds s.
Proof. by destruct R. Qed.

(** ** The loops of the forward pass *)

Section split.
Variable R : relation.

Lemma reassigned_start g s1 : reassigned R g s1 [] s1.
Proof.
  split_and!; auto using euds_extend_refl.
  intros i Hi. by apply elem_of_nil in Hi.
Qed.

Lemma reassigned_extend g s1 done s s' :
  reassigned R g s1 done s → euds_extend s s' → refs_same s s' →
  reassigned R g s1 done s'.
Proof.
  intros (He & Ho & Hk & Hn & Hd) He' [Ht Hu]. split_and!.
  - eauto using euds_extend_trans.
  - intros R' HR. rewrite Ht. auto.
  - intros R'. rewrite Hu. auto.
  - intros i Hi. rewrite Ht. auto.
  - intros i Hi. rewrite Ht. destruct (Hd i Hi) as [? [c Hc]].
    split; [done|]. exists c. by apply He'.
Qed.

Lemma insert_clone_triple g row s1 done x :
  euds s1 !! g = Some row →
  triple (reassigned R g s1 done)
         (exec (insert_eud (new_uid g x) row)) (λ _, True)
         (λ _ s, reassigned R g s1 done s ∧ is_Some (euds s !! new_uid g x))
         no_not_found.
Proof.
  intros Hg. apply triple_exec. intros s Hs.
  destruct (insert_eud _ _ _) as [s'|e] eqn:Hi.
  - assert (euds s !! g = Some row) as Hg' by (by apply Hs).
    destruct (insert_eud_extend _ _ _ _ _ Hg' Hi) as [He Hx].
    apply insert_eud_ok in Hi as (_ & _ & Hrefs).
    eauto using reassigned_extend.
  - apply insert_eud_err in Hi as ->. done.
Qed.

Lemma update_fk_reassigned g s1 done x s :
  reassigned R g s1 done s → is_Some (euds s !! new_uid g x) →
  reassigned R g s1 (done ++ [x])
    (with_table R (alter (λ _, Some (new_uid g x)) x (table R s)) s).
Proof.
  intros (He & Ho & Hk & Hn & Hd) Hx. split_and!.
  - eapply euds_extend_trans; [done|].
    apply euds_extend_eq, euds_with_table.
  - intros R' HR. rewrite table_with_table_ne by done. auto.
  - intros R'. rewrite unique_key_with_table. auto.
  - intros i Hi. rewrite elem_of_app, list_elem_of_singleton in Hi.
    rewrite table_with_table, lookup_alter_ne by (intros ->; auto).
    auto.
  - intros i Hi. rewrite table_with_table, euds_with_table.
    destruct (decide (x = i)) as [->|Hne].
    + split; [|done]. rewrite lookup_alter_eq.
      destruct (decide (i ∈ done)) as [Hin|Hin].
      * destruct (Hd i Hin) as [-> _]. by destruct (table R s1 !! i).
      * by rewrite (Hn i Hin).
    + rewrite lookup_alter_ne by done. apply Hd.
      rewrite elem_of_app, list_elem_of_singleton in Hi.
      destruct Hi; [done|congruence].
Qed.

Lemma clone_and_reassign_triple g row s1 done x :
  euds s1 !! g = Some row →
  triple (reassigned R g s1 done) (clone_and_reassign R g row x) (λ _, True)
         (λ _, reassigned R g s1 (done ++ [x])) no_not_found.
Proof.
  intros Hg. unfold clone_and_reassign.
  apply triple_bind with
    (Q := λ _ s, reassigned R g s1 done s ∧ is_Some (euds s !! new_uid g x)).
  - pose proof (insert_clone_triple g row s1 done x Hg) as Hinsert.
    assert (triple (reassigned R g s1 done)
              (bind (query (λ s, euds s !! new_uid g x))
                 (λ existing,
                    match existing with
                    | Some _ => ret tt
                    | None => exec (insert_eud (new_uid g x) row)
                    end))
              (λ _, True)
              (λ _ s, reassigned R g s1 done s ∧
                      is_Some (euds s !! new_uid g x))
              no_not_found) as Hcheck; [|by destruct R].
    apply triple_bind with
      (Q := λ existing s, reassigned R g s1 done s ∧
                          existing = euds s !! new_uid g x).
    + by apply triple_query.
    + intros [c|].
      * apply triple_ret. intros s [Hs Hc]. split; [done|]. by exists c.
      * eapply triple_conseq; [exact Hinsert|by intros s []|done..].
  - intros []. apply triple_exec. intros s [Hs Hx]. simpl.
    split; [done|]. by apply update_fk_reassigned.
Qed.

Lemma split_group_triple g ids s1 :
  triple (eq s1) (split_group R (g, ids)) (λ _, True)
         (λ _, group_step R g ids s1) no_not_found.
Proof.
  unfold split_group. simpl. destruct ids as [|k rest].
  { by apply triple_raise. }
  apply triple_bind with (Q := λ eud_row s, s = s1 ∧ eud_row = euds s1 !! g).
  { apply triple_query. by intros s <-. }
  intros [row|].
  - apply triple_from. intros ? [-> Hrow].
    eapply triple_conseq.
    + apply (triple_for_each (λ done _, reassigned R g s1 done)).
      intros done x todo _.
      by apply (clone_and_reassign_triple g row s1 done x).
    + intros ? <-. apply reassigned_start.
    + done.
    + intros [] s Hs. split; [congruence|]. by intros _ _.
    + done.
  - apply triple_ret. intros s [-> Hg]. split; [done|].
    intros row Hrow. congruence.
Qed.

Lemma relation_inv_start sa : relation_inv R sa [] sa.
Proof.
  split_and!; auto using euds_extend_refl.
  intros g ids H. by apply elem_of_nil in H.
Qed.

Lemma settled_frame g ids s s' :
  settled R g ids s → euds_extend s s' →
  (∀ i, i ∈ ids → table R s' !! i = table R s !! i) →
  settled R g ids s'.
Proof.
  intros [Hk|(k & rest & row & -> & Hk & Hg & Hrest)] [He _] Ht.
  - left. intros i Hi. rewrite Ht by done. auto.
  - right. exists k, rest, row. split_and!; [done| |by apply He|].
    + rewrite Ht by left. done.
    + intros i Hi. destruct (Hrest i Hi) as [Hi' [c Hc]].
      rewrite Ht by (by right). split; [done|]. exists c. by apply He.
Qed.

(** One turn of the outer loop. *)
Lemma relation_inv_step sa done g ids s1 s' :
  ids = array_agg_ids (table R sa) g → 1 < length ids →
  (∀ g' ids', (g', ids') ∈ done →
              ids' = array_agg_ids (table R sa) g' ∧ g' ≠ g) →
  relation_inv R sa done s1 → group_step R g ids s1 s' →
  relation_inv R sa (done ++ [(g, ids)]) s'.
Proof.
  intros Hids Hlen Hdone (He & Ho & Hu & Hn & Hs) [Hskip Hsplit].
  assert (∀ i, i ∈ ids → table R s1 !! i = Some (Some g)) as Hcur.
  { intros i Hi. rewrite Hn.
    - apply array_agg_ids_elem. by rewrite <- Hids.
    - intros g' ids' Hin Hi'. destruct (Hdone _ _ Hin) as [-> Hne].
      rewrite Hids in Hi. apply array_agg_ids_elem in Hi, Hi'.
      congruence. }
  assert (∀ g' ids' i, (g', ids') ∈ done → i ∈ ids' → i ∉ ids) as Hdisj.
  { intros g' ids' i Hin Hi' Hi. destruct (Hdone _ _ Hin) as [-> Hne].
    rewrite Hids in Hi. apply array_agg_ids_elem in Hi, Hi'.
    congruence. }
  destruct (euds s1 !! g) as [row|] eqn:Hg.
  - destruct (Hsplit row eq_refl) as (He' & Ho' & Hu' & Hn' & Hd').
    destruct ids as [|k rest]; [simpl in Hlen; lia|]. simpl in *.
    assert (k ∉ rest) as Hk.
    { pose proof (array_agg_ids_NoDup (table R sa) g) as Hnd.
      rewrite <- Hids in Hnd.
      by apply NoDup_cons in Hnd as [? _]. }
    split_and!.
    + eauto using euds_extend_trans.
    + intros R' HR. rewrite Ho' by done. auto.
    + intros R'. rewrite Hu'. auto.
    + intros i Hi. rewrite Hn'.
      * apply Hn. intros g' ids' Hin. apply (Hi g').
        rewrite elem_of_app. auto.
      * intros Hin. apply (Hi g (k :: rest)).
        -- rewrite elem_of_app, list_elem_of_singleton. auto.
        -- by right.
    + intros g' ids' Hin.
      rewrite elem_of_app, list_elem_of_singleton in Hin.
      destruct Hin as [Hin|[= -> ->]].
      * apply (settled_frame g' ids' s1); [by apply Hs|done|].
        intros i Hi. apply Hn'. intros Hi'.
        apply (Hdisj _ _ _ Hin Hi). by right.
      * right. exists k, rest, row. split_and!; [done| |by apply He'|].
        -- rewrite Hn' by done. apply Hcur. left.
        -- intros i Hi. destruct (Hd' i Hi) as [-> ?]. split; [|done].
           rewrite Hcur by (by right). done.
  - rewrite (Hskip eq_refl). split_and!; [done..| |].
    + intros i Hi. apply Hn. intros g' ids' Hin. apply (Hi g').
      rewrite elem_of_app. auto.
    + intros g' ids' Hin.
      rewrite elem_of_app, list_elem_of_singleton in Hin.
      destruct Hin as [Hin|[= -> ->]]; [by apply Hs|]. by left.
Qed.

(** The outer loop, over the groups of the table in any order: SQL leaves
    the order of the rows of the duplicates query open. *)
Lemma split_groups_triple sa l :
  l ≡ₚ select_dup_groups (table R sa) →
  triple (eq sa) (for_each l (split_group R)) (λ _, True)
         (λ _, relation_inv R sa l) no_not_found.
Proof.
  intros Hperm.
  assert (NoDup l.*1) as Hnd.
  { rewrite Hperm. apply select_dup_groups_NoDup. }
  assert (∀ g ids, (g, ids) ∈ l →
            ids = array_agg_ids (table R sa) g ∧ 1 < length ids) as Hel.
  { intros g ids. rewrite Hperm. apply select_dup_groups_elem. }
  eapply triple_conseq.
  - apply (triple_for_each (λ done _, relation_inv R sa done)).
    intros done [g ids] todo Hl.
    apply triple_from. intros s1 Hs1.
    eapply triple_conseq; [apply (split_group_triple g ids s1)|done..| |done].
    intros [] s' Hstep. simpl.
    rewrite Hl in Hnd, Hel.
    destruct (Hel g ids) as [Hids Hlen].
    { rewrite elem_of_app, elem_of_cons. auto. }
    apply (relation_inv_step sa done g ids s1 s'); [done..| |done|done].
    intros g' ids' Hin. split.
    + apply Hel. rewrite elem_of_app. auto.
    + rewrite fmap_app, fmap_cons in Hnd. simpl in Hnd.
      apply NoDup_app in Hnd as (_ & Hnd & _). intros ->.
      apply (Hnd g); [|left]. apply list_elem_of_fmap.
      by exists (g, ids').
  - intros ? <-. apply relation_inv_start.
  - done.
  - by intros [] s.
  - done.
Qed.

Lemma split_relation_triple sa :
  triple (eq sa) (split_relation R) (λ _, True)
         (λ _, relation_inv R sa (select_dup_groups (table R sa)))
         no_not_found.
Proof.
  unfold split_relation.
  apply triple_bind with
    (Q := λ dups s, s = sa ∧ dups = select_dup_groups (table R sa)).
  { apply triple_query. by intros s <-. }
  intros dups. apply triple_from. intros ? [-> ->].
  by apply split_groups_triple.
Qed.

End split.

(** ** The forward pass as a whole *)

Lemma reconcile_triple s0 :
  triple (eq s0) reconcile (λ _, True) (λ _, reconciled s0) no_not_found.
Proof.
  unfold reconcile.
  eapply triple_bind; [apply (split_relation_triple Certificates s0)|].
  intros []. apply triple_from. intros s1 (He1 & Ho1 & Hu1 & Hn1 & Hs1).
  eapply triple_conseq;
    [apply (split_relation_triple DataPackages s1)|done..| |done].
  intros [] s' (He2 & Ho2 & Hu2 & Hn2 & Hs2). simpl.
  assert (table DataPackages s1 = table DataPackages s0) as Hp
    by (by apply Ho1).
  assert (table Certificates s' = table Certificates s1) as Hc
    by (by apply Ho2).
  rewrite Hp in Hn2, Hs2. split_and!.
  - eauto using euds_extend_trans.
  - intros R. rewrite Hu2. auto.
  - intros [|]; split.
    + intros i Hi. rewrite Hc. by apply Hn1.
    + intros g ids Hin. apply (settled_frame _ g ids s1); [by apply Hs1|done|].
      intros i _. by rewrite Hc.
    + intros i Hi. by apply Hn2.
    + done.
Qed.

(** A skipped group stands in the way of the unique constraint. *)
Lemma kept_not_unique R g ids s :
  kept R g ids s → 1 < length ids → NoDup ids → fk_unique (table R s) → False.
Proof.
  intros Hk Hlen Hnd Hu. rewrite fk_unique_lookup in Hu.
  destruct ids as [|a [|b l]]; simpl in Hlen; [lia..|].
  assert (a = b) as ->.
  { apply (Hu _ _ g); apply Hk; rewrite !elem_of_cons; auto. }
  apply NoDup_cons in Hnd as [Hnd _]. destruct Hnd. left.
Qed.

Lemma reconcile_ok s0 s' :
  outcome (reconcile s0) = Ok (tt, s') → reconciled s0 s'.
Proof.
  intros H.
  by apply (triple_outcome _ _ _ _ _ _ _ _ (reconcile_triple s0) eq_refl H).
Qed.

(** The run of the forward pass is the run of steps 1-3, followed, if
    they return, by the refusal of the first [ALTER TABLE]. *)
Lemma upgrade_run s :
  trace (upgrade s) = trace (reconcile s) ∧
  outcome (upgrade s)
  = match outcome (reconcile s) with
    | Ok _ => Err SyntaxError
    | Err e => Err e
    end.
Proof.
  unfold upgrade, bind.
  destruct (outcome (reconcile s)) as [[[] s1]|e]; simpl; [|done].
  by rewrite app_nil_r.
Qed.

Lemma upgrade_raises s :
  ∃ e, outcome (upgrade s) = Err e ∧ e ≠ NotFoundError.
Proof.
  destruct (upgrade_run s) as [_ ->].
  pose proof (reconcile_triple s s eq_refl) as [_ H].
  destruct (outcome (reconcile s)) as [[[] s1]|e]; eauto.
Qed.

(** ** References to endpoints while the forward pass runs *)

Section dangling.
Variable s0 : store.

Lemma no_new_dangling_insert u row s s' :
  no_new_dangling s0 s → insert_eud u row s = Ok s' →
  no_new_dangling s0 s' ∧ is_Some (euds s' !! u).
Proof.
  intros HJ (Hu & He & Ht & _)%insert_eud_ok. split.
  - intros R i v Hi Hv. rewrite Ht in Hi. apply (HJ R i v Hi).
    rewrite He in Hv. by apply lookup_insert_None in Hv as [? _].
  - rewrite He, lookup_insert_eq. eauto.
Qed.

Lemma no_new_dangling_update R u x s :
  no_new_dangling s0 s → is_Some (euds s !! u) →
  no_new_dangling s0 (with_table R (alter (λ _, Some u) x (table R s)) s).
Proof.
  intros HJ [c Hc] R' i v Hi Hv. rewrite euds_with_table in Hv.
  destruct (decide (R' = R)) as [->|HR].
  - rewrite table_with_table in Hi.
    destruct (decide (x = i)) as [->|Hx].
    + rewrite lookup_alter_eq in Hi.
      destruct (table R s !! i); simplify_eq/=.
    + rewrite lookup_alter_ne in Hi by done. by apply HJ.
  - rewrite table_with_table_ne in Hi by done. by apply HJ.
Qed.

Lemma insert_clone_dangling u row :
  triple (no_new_dangling s0) (exec (insert_eud u row)) (no_new_dangling s0)
         (λ _ s, no_new_dangling s0 s ∧ is_Some (euds s !! u)) (λ _, True).
Proof.
  apply triple_exec. intros s Hs.
  destruct (insert_eud u row s) as [s'|e] eqn:Hi; [|done].
  destruct (no_new_dangling_insert _ _ _ _ Hs Hi). auto.
Qed.

Lemma clone_and_reassign_dangling R g row x :
  keeps_references s0 (clone_and_reassign R g row x).
Proof.
  unfold keeps_references, clone_and_reassign.
  apply triple_bind with
    (Q := λ _ s, no_new_dangling s0 s ∧ is_Some (euds s !! new_uid g x)).
  - destruct R; [apply insert_clone_dangling|].
    apply triple_bind with
      (Q := λ existing s, no_new_dangling s0 s ∧
                          existing = euds s !! new_uid g x).
    + by apply triple_query.
    + intros [c|].
      * apply triple_ret. intros s [Hs Hc]. split; [done|]. by exists c.
      * eapply triple_conseq; [apply insert_clone_dangling
                              |by intros s []|done..].
  - intros []. apply triple_exec. intros s [Hs Hx]. simpl.
    split; by apply no_new_dangling_update.
Qed.

Lemma split_group_dangling R row : keeps_references s0 (split_group R row).
Proof.
  destruct row as [g [|k rest]]; unfold keeps_references, split_group; simpl.
  { by apply triple_raise. }
  apply triple_bind with (Q := λ _, no_new_dangling s0);
    [by apply triple_query|].
  intros [row|]; [|by apply triple_ret].
  apply (triple_for_each (λ _ _, no_new_dangling s0)).
  intros done x todo _. apply clone_and_reassign_dangling.
Qed.

Lemma split_relation_dangling R : keeps_references s0 (split_relation R).
Proof.
  unfold keeps_references, split_relation.
  apply triple_bind with (Q := λ _, no_new_dangling s0);
    [by apply triple_query|].
  intros dups. apply (triple_for_each (λ _ _, no_new_dangling s0)).
  intros done x todo _. apply split_group_dangling.
Qed.

Lemma add_unique_dangling R : keeps_references s0 (exec (add_unique R)).
Proof. apply triple_exec. by intros s Hs. Qed.

Lemma upgrade_dangling : keeps_references s0 upgrade.
Proof.
  unfold keeps_references, upgrade, reconcile, add_unique_constraints.
  apply triple_bind with (Q := λ _, no_new_dangling s0); [|intros []].
  - apply triple_bind with (Q := λ _, no_new_dangling s0); [|intros []];
      apply split_relation_dangling.
  - apply triple_bind with (Q := λ _, no_new_dangling s0); [|intros []];
      apply add_unique_dangling.
Qed.

End dangling.

(** ** What steps 1-3 make of the groups whose uid has an endpoint *)

Lemma split_done_frame R g ids s s' :
  split_done R g ids s → euds_extend s s' →
  (∀ i, i ∈ ids → table R s' !! i = table R s !! i) →
  split_done R g ids s'.
Proof.
  intros (k & rest & row & -> & Hk & Hg & Hrest) [He _] Ht.
  exists k, rest, row. split_and!; [done| |by apply He|].
  - rewrite Ht by left. done.
  - intros i Hi. destruct (Hrest i Hi) as [Hi' [c Hc]].
    rewrite Ht by (by right). split; [done|]. exists c. by apply He.
Qed.

(** The body of the outer loop adds endpoints and writes to the later
    members of its group only. *)
Lemma group_step_frame R g ids s1 s' :
  group_step R g ids s1 s' →
  euds_extend s1 s' ∧ ∀ i, i ∉ tail ids → table R s' !! i = table R s1 !! i.
Proof.
  intros [Hnone Hsome]. destruct (euds s1 !! g) as [row|] eqn:Hg.
  - by destruct (Hsome row eq_refl) as (He & _ & _ & Hn & _).
  - rewrite Hnone by done. split; [apply euds_extend_refl|done].
Qed.

Section split_all.
Variable s0 : store.

(** The outer loop of a table that is still as in [s0]. *)
Lemma split_relation_all R sa :
  table R sa = table R s0 → euds_extend s0 sa →
  triple (eq sa) (split_relation R) (λ _, True)
         (λ _ s', relation_inv R sa (select_dup_groups (table R sa)) s' ∧
                  all_split R s0 (select_dup_groups (table R sa)) s')
         no_not_found.
Proof.
  intros Ht [He0 _]. unfold split_relation.
  apply triple_bind with
    (Q := λ dups s, s = sa ∧ dups = select_dup_groups (table R sa)).
  { apply triple_query. by intros s <-. }
  intros dups. apply triple_from. intros ? [-> ->].
  pose proof (select_dup_groups_NoDup (table R sa)) as Hnd.
  assert (∀ g ids, (g, ids) ∈ select_dup_groups (table R sa) →
            ids = array_agg_ids (table R sa) g ∧ 1 < length ids) as Hel.
  { intros g ids. apply select_dup_groups_elem. }
  eapply triple_conseq.
  - apply (triple_for_each
             (λ done _ s, relation_inv R sa done s ∧ all_split R s0 done s)).
    intros done [g ids] todo Hl.
    apply triple_from. intros s1 (Hinv & Hall).
    assert ((g, ids) ∈ select_dup_groups (table R sa)) as Hin.
    { rewrite Hl, elem_of_app, elem_of_cons. auto. }
    destruct (Hel g ids Hin) as [Hids Hlen].
    assert (∀ g' ids', (g', ids') ∈ done →
              ids' = array_agg_ids (table R sa) g' ∧ g' ≠ g) as Hdone.
    { intros g' ids' Hin'. split.
      - apply Hel. rewrite Hl, elem_of_app. auto.
      - rewrite Hl, fmap_app, fmap_cons in Hnd. simpl in Hnd.
        apply NoDup_app in Hnd as (_ & Hnd & _). intros ->.
        apply (Hnd g); [|left]. apply list_elem_of_fmap.
        by exists (g, ids'). }
    assert (∀ g' ids' i, (g', ids') ∈ done → i ∈ ids' → i ∉ ids) as Hdisj.
    { intros g' ids' i Hin' Hi' Hi. destruct (Hdone _ _ Hin') as [-> Hne].
      rewrite Hids in Hi. apply array_agg_ids_elem in Hi, Hi'. congruence. }
    pose proof Hinv as (He & _ & _ & Hn & _).
    assert (∀ i, i ∈ ids → table R s1 !! i = Some (Some g)) as Hcur.
    { intros i Hi. rewrite Hn.
      - apply array_agg_ids_elem. by rewrite <- Hids.
      - intros g' ids' Hin' Hi'. by apply (Hdisj g' ids' i). }
    destruct ids as [|k rest]; [simpl in Hlen; lia|].
    assert (NoDup (k :: rest)) as [Hk Hndr]%NoDup_cons.
    { rewrite Hids. apply array_agg_ids_NoDup. }
    eapply triple_conseq;
      [apply (split_group_triple R g (k :: rest) s1)|done..| |done].
    intros [] s' Hstep. cbv beta.
    destruct (group_step_frame _ _ _ _ _ Hstep) as [He' Hn']. simpl in Hn'.
    split.
    + by apply (relation_inv_step R sa done g (k :: rest) s1 s').
    + intros g' ids' Hin' [e0 Hg0].
      rewrite elem_of_app, list_elem_of_singleton in Hin'.
      destruct Hin' as [Hin'|[= -> ->]].
      * apply (split_done_frame R g' ids' s1); [by eauto|done|].
        intros i Hi. apply Hn'. intros Hi'.
        apply (Hdisj _ _ _ Hin' Hi). by right.
      * assert (euds s1 !! g = Some e0) as Hg1 by (by apply He, He0).
        destruct Hstep as [_ Hsome].
        destruct (Hsome e0 Hg1) as ([He'' _] & _ & _ & Hn'' & Hd'').
        simpl in Hn'', Hd''.
        exists k, rest, e0. split_and!; [done| |by apply He''|].
        -- rewrite Hn'' by done. apply Hcur. left.
        -- intros i Hi. destruct (Hd'' i Hi) as [-> ?]. split; [|done].
           rewrite Hcur by (by right). done.
  - intros ? <-. split; [apply relation_inv_start|].
    intros g ids Hin. by apply elem_of_nil in Hin.
  - done.
  - by intros [] s.
  - intros e He. exact He.
Qed.

Lemma reconcile_all_split :
  triple (eq s0) reconcile (λ _, True)
         (λ _ s', ∀ R, all_split R s0 (select_dup_groups (table R s0)) s')
         no_not_found.
Proof.
  unfold reconcile.
  eapply triple_bind.
  { apply (split_relation_all Certificates s0);
      [done|apply euds_extend_refl]. }
  intros []. apply triple_from.
  intros s1 ((He1 & Ho1 & _ & _ & _) & Hall1).
  assert (table DataPackages s1 = table DataPackages s0) as Hp
    by (by apply Ho1).
  eapply triple_conseq;
    [by apply (split_relation_all DataPackages s1)|done..| |done].
  intros [] s' ((He2 & Ho2 & _ & _ & _) & Hall2). cbv beta.
  assert (table Certificates s' = table Certificates s1) as Hc
    by (by apply Ho2).
  rewrite Hp in Hall2. intros [|]; [|done].
  intros g ids Hin Hg.
  apply (split_done_frame _ g ids s1); [by apply Hall1|done|].
  intros i _. by rewrite Hc.
Qed.

End split_all.

Lemma reconcile_all_ok s0 s' :
  outcome (reconcile s0) = Ok (tt, s') → all_groups_split s0 s'.
Proof.
  intros H. split; [by apply reconcile_ok|].
  by apply (triple_outcome _ _ _ _ _ _ _ _ (reconcile_all_split s0) eq_refl H).
Qed.

(** How a record of a table can differ after steps 1-3: not at all, or by
    pointing to its own clone of the endpoint it pointed to. *)
Lemma reconciled_record s s' R i :
  reconciled s s' →
  table R s' !! i = table R s !! i ∨
  ∃ g, table R s !! i = Some (Some g) ∧
       table R s' !! i = Some (Some (new_uid g i)).
Proof.
  intros (_ & _ & Hg). destruct (Hg R) as [Hn Hs].
  assert (∀ g' ids', (g', ids') ∈ select_dup_groups (table R s) → i ∈ ids' →
            table R s !! i = Some (Some g')) as Hin.
  { intros g' ids' [-> _]%select_dup_groups_elem. apply array_agg_ids_elem. }
  destruct (table R s !! i) as [[g|]|] eqn:Hi.
  - destruct (decide (1 < length (array_agg_ids (table R s) g))) as [Hlen|Hlen].
    + assert ((g, array_agg_ids (table R s) g) ∈ select_dup_groups (table R s))
        as Hgrp by (by apply select_dup_groups_elem).
      apply array_agg_ids_elem in Hi.
      destruct (Hs _ _ Hgrp)
        as [Hk|(k & rest & row & Hids & Hk & _ & Hrest)].
      * left. by apply Hk.
      * rewrite Hids in Hi.
        apply elem_of_cons in Hi as [->|Hi]; [by left|].
        right. exists g. split; [done|]. by apply Hrest.
    + left. rewrite <- Hi. apply Hn. intros g' ids' Hgrp Hi'.
      pose proof (Hin _ _ Hgrp Hi') as [= <-].
      by apply select_dup_groups_elem in Hgrp as [-> ?].
  - left. rewrite <- Hi. apply Hn. intros g' ids' Hgrp Hi'.
    by pose proof (Hin _ _ Hgrp Hi').
  - left. rewrite <- Hi. apply Hn. intros g' ids' Hgrp Hi'.
    by pose proof (Hin _ _ Hgrp Hi').
Qed.

(** Two records that share a value after steps 1-3 shared it before, and
    it has no endpoint: their group was skipped. *)
Lemma reconciled_same_value s s' R i j v :
  fks_sep_free s → all_groups_split s s' →
  table R s' !! i = Some (Some v) → table R s' !! j = Some (Some v) → i ≠ j →
  table R s !! i = Some (Some v) ∧ table R s !! j = Some (Some v) ∧
  euds s !! v = None ∧ euds s' !! v = None.
Proof.
  intros Hfree [Hrec Hall] Hi Hj Hij.
  destruct (reconciled_record s s' R i Hrec) as [Hi0|(gi & Hi0 & Hi1)],
           (reconciled_record s s' R j Hrec) as [Hj0|(gj & Hj0 & Hj1)].
  - rewrite Hi in Hi0. rewrite Hj in Hj0. symmetry in Hi0, Hj0.
    pose proof (Hfree R _ _ Hi0) as Hsep. simpl in Hsep.
    apply negb_true_iff in Hsep.
    assert (euds s !! v = None) as Hv.
    { destruct (euds s !! v) as [e|] eqn:He; [exfalso|done].
      pose proof (select_dup_groups_complete _ _ _ _ Hi0 Hj0 Hij) as Hin.
      destruct (Hall R _ _ Hin) as (k & rest & row & Hids & _ & _ & Hrest);
        [by rewrite He|].
      assert (∀ x, table R s !! x = Some (Some v) →
                   table R s' !! x = Some (Some v) → x = k) as Hkeeper.
      { intros x Hx Hxv. apply array_agg_ids_elem in Hx. rewrite Hids in Hx.
        apply elem_of_cons in Hx as [->|Hx]; [done|].
        destruct (Hrest x Hx) as [Hx' _]. rewrite Hx' in Hxv.
        injection Hxv as Hxv. by apply new_uid_ne in Hxv. }
      apply Hij. by rewrite (Hkeeper i), (Hkeeper j). }
    split_and!; [done..|].
    destruct (euds s' !! v) as [c|] eqn:Hc; [exfalso|done].
    destruct Hrec as ([_ Hext] & _).
    destruct (Hext _ _ Hc Hv) as (g & x & e & -> & _).
    by rewrite like_infix_new_uid in Hsep.
  - exfalso. rewrite Hj1 in Hj. injection Hj as <-.
    rewrite Hi in Hi0. symmetry in Hi0.
    pose proof (Hfree R _ _ Hi0) as Hsep. simpl in Hsep.
    by rewrite like_infix_new_uid in Hsep.
  - exfalso. rewrite Hi1 in Hi. injection Hi as <-.
    rewrite Hj in Hj0. symmetry in Hj0.
    pose proof (Hfree R _ _ Hj0) as Hsep. simpl in Hsep.
    by rewrite like_infix_new_uid in Hsep.
  - exfalso. rewrite Hi1 in Hi. rewrite Hj1 in Hj. injection Hi as <-.
    injection Hj as Heq. by apply clone_uid_split in Heq as [_ ?].
Qed.


(** ** The reversal as a whole *)

(** The reversal returns where both constraints exist; elsewhere the
    statement after the dropped exception is refused. *)
Lemma downgrade_outcome s :
  outcome (downgrade s)
  = if unique_key Certificates s && unique_key DataPackages s
    then Ok (tt, downgrade_store s)
    else Err InFailedSqlTransaction.
Proof. destruct s as [e n c d [|] [|]]; reflexivity. Qed.

Lemma downgrade_store_cut s : cut_at_separator s (downgrade_store s).
Proof.
  assert (∀ R, table R (downgrade_store s) = restore_fk <$> table R s) as Ht
    by (by intros [|]).
  split_and!.
  - intros R i v Hi Hlike. rewrite Ht, lookup_fmap, Hi. simpl.
    rewrite Hlike. unfold Sql.orig_uid.
    destruct (Sql.position Sql.separator v) as [|n] eqn:Hpos.
    { by rewrite like_infix_position, Hpos in Hlike. }
    destruct (position_first _ _ _ Hpos) as (p & q & -> & <- & Hmin).
    exists p, q. split_and!; [done..|].
    replace (S (String.length p) - 1) with (String.length p) by lia.
    by rewrite substring_for_app.
  - intros R i fk Hi Hfree. rewrite Ht, lookup_fmap, Hi. simpl.
    destruct fk as [v|]; simpl in *; [|done].
    apply negb_true_iff in Hfree. by rewrite Hfree.
  - intros u Hlike. simpl. apply map_lookup_filter_None. right.
    intros e _. simpl. by rewrite Hlike.
  - intros u Hlike. simpl.
    destruct (euds s !! u) as [e|] eqn:Hu.
    + by apply map_lookup_filter_Some.
    + apply map_lookup_filter_None. by left.
Qed.

(** ** The passes on the example stores *)

Example upgrade_scenario :
  upgrade scenario = Run [scenario_cloned; scenario_split] (Err SyntaxError).
Proof. vm_compute. reflexivity. Qed.

Example reconcile_scenario :
  outcome (reconcile scenario) = Ok (tt, scenario_split).
Proof. vm_compute. reflexivity. Qed.

Example upgrade_scenario_split :
  upgrade scenario_split = Run [] (Err SyntaxError).
Proof. vm_compute. reflexivity. Qed.

Example downgrade_scenario_split :
  downgrade scenario_split = Run [] (Err InFailedSqlTransaction).
Proof. vm_compute. reflexivity. Qed.

Example downgrade_scenario_constrained :
  outcome (downgrade scenario_constrained) = Ok (tt, scenario_downgraded).
Proof. vm_compute. reflexivity. Qed.

Example upgrade_missing_endpoint :
  upgrade missing_endpoint = Run [] (Err SyntaxError).
Proof. vm_compute. reflexivity. Qed.

Example upgrade_taken_certificates :
  upgrade taken_certificates = Run [] (Err DuplicateKey).
Proof. vm_compute. reflexivity. Qed.

Example reconcile_taken_data_packages :
  outcome (reconcile taken_data_packages)
  = Ok (tt, taken_data_packages_split).
Proof. vm_compute. reflexivity. Qed.

Example orig_uid_twice : Sql.orig_uid "E1::dup::2::dup::3" = "E1".
Proof. reflexivity. Qed.

(** ** The properties of the migration's description *)

(** C1.  The forward pass never completes.  Its step 4 sends
    [ALTER TABLE ... ADD CONSTRAINT ... UNIQUE (...) WHERE ...], which the
    database refuses for its syntax, so every run raises: on [scenario],
    after steps 1-3 have inserted the clone and repointed certificate 2.
    The state after a completed forward pass, of which the description
    says that no two records share a value, is never reached, and no
    constraint is ever added. *)
Theorem upgrade_never_completes :
  (∀ s, ∃ e, outcome (upgrade s) = Err e) ∧
  upgrade scenario = Run [scenario_cloned; scenario_split] (Err SyntaxError).
Proof.
  split; [|apply upgrade_scenario].
  intros s. destruct (upgrade_raises s) as (e & He & _). eauto.
Qed.

(** C2.  On [scenario] there is no completed forward pass to reverse: the
    pass raises in step 4.  The reversal, from the store that the pass has
    written last as from the store it started from, finds no constraint to
    drop; the exception is dropped, the transaction is aborted, and the
    first [UPDATE] is refused: no foreign key is restored and no clone is
    deleted. *)
Theorem roundtrip_raises :
  outcome (upgrade scenario) = Err SyntaxError ∧
  last (trace (upgrade scenario)) = Some scenario_split ∧
  downgrade scenario_split = Run [] (Err InFailedSqlTransaction) ∧
  downgrade scenario = Run [] (Err InFailedSqlTransaction).
Proof. split_and!; vm_compute; reflexivity. Qed.

(** C3, counterexample.  The certificates 1 and 2 of [missing_endpoint]
    share ["E1"], which has no endpoint row.  Steps 1-3 return without
    executing a statement: the group is skipped.  What the pass raises, in
    step 4, is not [NotFoundError]. *)
Lemma missing_endpoint_is_skipped :
  ¬ missing_endpoint_aborts missing_endpoint ∧
  reconcile missing_endpoint = Run [] (Ok (tt, missing_endpoint)) ∧
  upgrade missing_endpoint = Run [] (Err SyntaxError).
Proof.
  split; [|split; vm_compute; reflexivity].
  intros H. specialize (H Certificates "E1" [1; 2]%Z).
  rewrite upgrade_missing_endpoint in H. simpl in H.
  assert (Err SyntaxError = @Err (unit * store) NotFoundError) as Heq;
    [|discriminate Heq].
  apply H; [|reflexivity].
  apply select_dup_groups_elem. split; [vm_compute; reflexivity|simpl; lia].
Qed.

(** C3, amended.  When the shared uid [g] of a group has no endpoint row
    at cloning time, the body of the outer loop executes no statement,
    raises nothing and returns with the store as it is; the pass never
    raises [NotFoundError].  If moreover [g] does not contain the
    separator, and the group is one of the store that the pass starts
    from, then when steps 1-3 return, [g] still has no endpoint row and
    every record of the group still holds [g]. *)
Theorem missing_endpoint_skipped R g k dups s :
  euds s !! g = None →
  split_group R (g, k :: dups) s = Run [] (Ok (tt, s)) ∧
  outcome (upgrade s) ≠ Err NotFoundError ∧
  (Sql.like_infix Sql.separator g = false →
   (g, k :: dups) ∈ select_dup_groups (table R s) →
   ∀ s', outcome (reconcile s) = Ok (tt, s') →
     euds s' !! g = None ∧
     ∀ i, i ∈ k :: dups → table R s' !! i = Some (Some g)).
Proof.
  intros Hg. split_and!.
  - unfold split_group. simpl.
    rewrite (bind_silent _ _ s (euds s !! g) s) by done. by rewrite Hg.
  - destruct (upgrade_raises s) as (e & -> & Hne). congruence.
  - intros Hsep Hin s' Hrec%reconcile_ok.
    assert (euds s' !! g = None) as Hg'.
    { destruct (euds s' !! g) as [c|] eqn:Hc; [exfalso|done].
      destruct Hrec as ([_ Hext] & _).
      destruct (Hext _ _ Hc Hg) as (g' & x & e & -> & _).
      by rewrite like_infix_new_uid in Hsep. }
    split; [done|].
    destruct Hrec as (_ & _ & Hgrp). destruct (Hgrp R) as [_ Hs].
    destruct (Hs _ _ Hin) as [Hk|(k' & rest & row & _ & _ & Hrow & _)];
      [done|congruence].
Qed.

Lemma missing_endpoint_skipped_witness :
  euds missing_endpoint !! "E1" = None ∧
  split_group Certificates ("E1", [1; 2]%Z) missing_endpoint
  = Run [] (Ok (tt, missing_endpoint)) ∧
  outcome (upgrade missing_endpoint) ≠ Err NotFoundError ∧
  (Sql.like_infix Sql.separator "E1" = false →
   ("E1", [1; 2]%Z) ∈ select_dup_groups (table Certificates missing_endpoint) →
   ∀ s', outcome (reconcile missing_endpoint) = Ok (tt, s') →
     euds s' !! "E1" = None ∧
     ∀ i, i ∈ [1; 2]%Z → table Certificates s' !! i = Some (Some "E1")).
Proof.
  split; [reflexivity|].
  apply (missing_endpoint_skipped Certificates "E1" 1 [2%Z] missing_endpoint).
  reflexivity.
Defined.

(** The two paths when the clone uid has an endpoint: the certificates
    path raises on its insert, the data_packages path inserts nothing and
    repoints the record. *)
Lemma clone_exists_certificates g row x s :
  is_Some (euds s !! new_uid g x) →
  clone_and_reassign Certificates g row x s = Run [] (Err DuplicateKey).
Proof.
  intros [c Hc]. unfold clone_and_reassign, bind, exec, insert_eud.
  by rewrite Hc.
Qed.

Lemma clone_exists_data_packages g row x s :
  is_Some (euds s !! new_uid g x) →
  ∃ s', outcome (clone_and_reassign DataPackages g row x s) = Ok (tt, s') ∧
        euds s' = euds s ∧
        data_packages s' = alter (λ _, Some (new_uid g x)) x (data_packages s).
Proof.
  intros [c Hc]. unfold clone_and_reassign, bind, query, exec, update_fk.
  simpl. rewrite Hc. simpl. by eexists.
Qed.

(** C4.  The uid of the clone for record 2 is taken.  With the duplicates
    in [certificates] the forward pass does not look, inserts, and raises
    the duplicate key at its first statement; with the same duplicates in
    [data_packages], steps 1-3 find the endpoint, insert nothing and
    return. *)
Theorem existing_clone_certificates_raises :
  upgrade taken_certificates = Run [] (Err DuplicateKey) ∧
  outcome (reconcile taken_data_packages)
  = Ok (tt, taken_data_packages_split) ∧
  euds taken_data_packages_split = euds taken_data_packages.
Proof. split_and!; vm_compute; reflexivity. Qed.




(** C6.  The clone uid determines the original uid and the record id: two
    pairs with the same [f"{eud_uid}::dup::{cert_id}"] are the same pair. *)
Theorem new_uid_inj o1 r1 o2 r2 :
  new_uid o1 r1 = new_uid o2 r2 → o1 = o2 ∧ r1 = r2.
Proof. apply clone_uid_split. Qed.

Lemma new_uid_inj_witness :
  new_uid "E1" 12 = new_uid "E1" 12 ∧ "E1" = "E1" ∧ 12%Z = 12%Z.
Proof.
  split; [reflexivity|].
  apply (new_uid_inj "E1" 12 "E1" 12). reflexivity.
Defined.

(** C7, counterexample.  In [taken_data_packages] the uid ["E1::dup::2"]
    has an endpoint already, with other columns than ["E1"]: steps 1-3
    return, data package 2 points to ["E1::dup::2"], and no endpoint was
    inserted.  In [missing_endpoint] the uid of the group has no endpoint:
    steps 1-3 return and certificate 2 holds ["E1"] as before. *)
Lemma taken_clone_is_reused :
  ¬ groups_cloned taken_data_packages ∧ ¬ groups_cloned missing_endpoint.
Proof.
  split; intros H.
  - destruct (H taken_data_packages_split DataPackages "E1" 1%Z [2%Z])
      as [_ H2].
    + vm_compute. reflexivity.
    + apply select_dup_groups_elem.
      split; [vm_compute; reflexivity|simpl; lia].
    + destruct (H2 2%Z) as (_ & Hnone & _); [left|].
      vm_compute in Hnone. discriminate Hnone.
  - destruct (H missing_endpoint Certificates "E1" 1%Z [2%Z]) as [_ H2].
    + vm_compute. reflexivity.
    + apply select_dup_groups_elem.
      split; [vm_compute; reflexivity|simpl; lia].
    + destruct (H2 2%Z) as (Hi & _); [left|].
      vm_compute in Hi. discriminate Hi.
Qed.

(** C7, amended.  When steps 1-3 return, for every duplicate group of
    either table whose shared uid [g] had an endpoint before the pass: the
    first record of the group has the lowest id and still holds [g]; [g]
    has its endpoint, unchanged; and every other record [i] holds
    [g::dup::i], which has an endpoint that carries the columns of the
    endpoint of [g] whenever it was not there before the pass. *)
Theorem reconcile_splits_group s s' R g k rest e :
  outcome (reconcile s) = Ok (tt, s') →
  (g, k :: rest) ∈ select_dup_groups (table R s) →
  euds s !! g = Some e →
  (∀ i, i ∈ rest → (k < i)%Z) ∧
  table R s' !! k = Some (Some g) ∧
  euds s' !! g = Some e ∧
  ∀ i, i ∈ rest →
    table R s' !! i = Some (Some (new_uid g i)) ∧
    ∃ c, euds s' !! new_uid g i = Some c ∧
         (euds s !! new_uid g i = None → eud_data c = eud_data e).
Proof.
  intros [([Hmono Hnew] & _) Hall]%reconcile_all_ok Hin Hg.
  destruct (Hall R _ _ Hin)
    as (k' & rest' & row & [= <- <-] & Hk & Hrow & Hrest); [by rewrite Hg|].
  apply select_dup_groups_elem in Hin as [Hids _]. split_and!.
  - by apply (array_agg_ids_keeper_lowest (table R s) g).
  - done.
  - by apply Hmono.
  - intros i Hi. destruct (Hrest i Hi) as [Hti [c Hc]].
    split; [done|]. exists c. split; [done|]. intros Hnone.
    destruct (Hnew _ _ Hc Hnone) as (g' & i' & e' & Heq & Hg' & Hd).
    apply clone_uid_split in Heq as [<- _].
    apply Hmono in Hg. congruence.
Qed.

Lemma reconcile_splits_group_witness :
  outcome (reconcile scenario) = Ok (tt, scenario_split) ∧
  ("E1", [1; 2]%Z) ∈ select_dup_groups (table Certificates scenario) ∧
  euds scenario !! "E1" = Some (alpha 1) ∧
  (∀ i, i ∈ [2%Z] → (1 < i)%Z) ∧
  table Certificates scenario_split !! 1%Z = Some (Some "E1") ∧
  euds scenario_split !! "E1" = Some (alpha 1) ∧
  ∀ i, i ∈ [2%Z] →
    table Certificates scenario_split !! i = Some (Some (new_uid "E1" i)) ∧
    ∃ c, euds scenario_split !! new_uid "E1" i = Some c ∧
         (euds scenario !! new_uid "E1" i = None →
          eud_data c = eud_data (alpha 1)).
Proof.
  assert (outcome (reconcile scenario) = Ok (tt, scenario_split)) as H1
    by (vm_compute; reflexivity).
  assert (("E1", [1; 2]%Z) ∈ select_dup_groups (table Certificates scenario))
    as H2.
  { apply select_dup_groups_elem. split; [vm_compute; reflexivity|simpl; lia]. }
  assert (euds scenario !! "E1" = Some (alpha 1)) as H3 by reflexivity.
  split; [done|]. split; [done|]. split; [done|].
  apply (reconcile_splits_group scenario scenario_split Certificates
           "E1" 1 [2%Z] (alpha 1) H1 H2 H3).
Defined.

Example scenario_record_2 :
  table Certificates scenario_split !! 2%Z = Some (Some "E1::dup::2") ∧
  euds scenario_split !! "E1::dup::2" = Some (alpha 2) ∧
  eud_data (alpha 2) = eud_data (alpha 1).
Proof. split_and!; reflexivity. Qed.

(** C8, counterexample.  Certificate 3 of [dangling0] holds a value of
    clone form that has no endpoint row.  The pass writes two stores, and
    in both the certificate holds that value, still without a row. *)
Lemma dangling_reference_stays :
  ¬ never_dangles dangling0 ∧
  length (trace (upgrade dangling0)) = 2 ∧
  Forall (λ s, certificates s !! 3%Z = Some (Some "X::dup::9") ∧
               euds s !! "X::dup::9" = None)
         (trace (upgrade dangling0)).
Proof.
  assert (Forall (λ s, certificates s !! 3%Z = Some (Some "X::dup::9") ∧
                       euds s !! "X::dup::9" = None)
                 (trace (upgrade dangling0))) as Hall.
  { apply (bool_decide_unpack _). vm_compute. exact I. }
  split_and!; [|vm_compute; reflexivity|done].
  unfold never_dangles. intros H.
  destruct (trace (upgrade dangling0)) as [|s1 l] eqn:Htr;
    [vm_compute in Htr; discriminate Htr|].
  apply Forall_cons in H as [H _]. apply Forall_cons in Hall as [[H3 Hn] _].
  destruct (H Certificates 3%Z "X::dup::9" H3) as [c Hc]; [reflexivity|].
  congruence.
Qed.

Lemma fks_sep_free_resolved s : fks_sep_free s → clone_refs_resolved s.
Proof.
  intros Hfree R i v Hi Hv. apply (Hfree R) in Hi. simpl in Hi.
  by rewrite Hv in Hi.
Qed.

(** C8, amended.  Every store that the forward pass writes, however the
    pass ends, has this property: a record whose foreign-key value has no
    endpoint row held that value before the pass, when it had no endpoint
    row either.  The pass never makes a record point to a uid without an
    endpoint row: the clone is there before the record is repointed.  So
    if every foreign-key value of clone form has an endpoint row before the
    pass, then so it is in every store that the pass writes. *)
Theorem upgrade_never_dangles s0 :
  Forall (no_new_dangling s0) (trace (upgrade s0)) ∧
  (clone_refs_resolved s0 →
   Forall clone_refs_resolved (trace (upgrade s0))).
Proof.
  assert (Forall (no_new_dangling s0) (trace (upgrade s0))) as H.
  { apply (triple_trace _ _ _ _ _ _ (upgrade_dangling s0)).
    intros R i v. auto. }
  split; [done|]. intros H0. eapply Forall_impl; [exact H|].
  intros s Hs R i v Hi Hv.
  destruct (euds s !! v) as [c|] eqn:Hc; [by exists c|].
  destruct (Hs R i v Hi Hc) as [Hi0 Hc0].
  destruct (H0 R i v Hi0 Hv) as [c Hc']. congruence.
Qed.

Lemma upgrade_never_dangles_witness :
  clone_refs_resolved scenario ∧
  Forall clone_refs_resolved (trace (upgrade scenario)).
Proof.
  assert (clone_refs_resolved scenario) as H0.
  { apply fks_sep_free_resolved.
    intros [|]; apply (bool_decide_unpack _); vm_compute; exact I. }
  split; [done|]. by apply (upgrade_never_dangles scenario).
Defined.

(** The stores that the forward pass writes on [scenario]: after the
    insert of the clone and after the update of certificate 2. *)
Example scenario_trace :
  (λ s, (euds s !! "E1::dup::2", certificates s !! 2%Z))
    <$> trace (upgrade scenario)
  = [ (Some (alpha 2), Some (Some "E1"));
      (Some (alpha 2), Some (Some "E1::dup::2")) ].
Proof. vm_compute. reflexivity. Qed.

(** C9.  When the shared uid of a group has no endpoint row, the body of
    the outer loop executes no statement and returns with the store as it
    is: no clone, no record repointed, no error.  The loop goes on with the
    groups that follow, and, in [certificates], the pass goes on with
    [data_packages]. *)
Theorem skip_missing_endpoint R g k dups rest s :
  euds s !! g = None →
  split_group R (g, k :: dups) s = Run [] (Ok (tt, s)) ∧
  for_each ((g, k :: dups) :: rest) (split_group R) s
  = for_each rest (split_group R) s ∧
  (select_dup_groups (certificates s) = (g, k :: dups) :: rest →
   reconcile s
   = bind (for_each rest (split_group Certificates))
          (λ _, split_relation DataPackages) s).
Proof.
  intros Hg.
  assert (∀ R', split_group R' (g, k :: dups) s = Run [] (Ok (tt, s))) as Hskip.
  { intros R'. unfold split_group. simpl.
    rewrite (bind_silent _ _ s (euds s !! g) s) by done. by rewrite Hg. }
  split_and!.
  - apply Hskip.
  - simpl. by rewrite (bind_silent _ _ s tt s).
  - intros Hdups. unfold reconcile, split_relation at 1.
    assert (bind (query (λ s, select_dup_groups (table Certificates s)))
                 (λ dups, for_each dups (split_group Certificates)) s
            = for_each rest (split_group Certificates) s) as Hloop.
    { rewrite (bind_silent _ _ s (select_dup_groups (certificates s)) s)
        by done.
      rewrite Hdups. simpl. by rewrite (bind_silent _ _ s tt s). }
    unfold bind at 1. rewrite Hloop. reflexivity.
Qed.

Lemma skip_missing_endpoint_witness :
  euds missing_endpoint !! "E1" = None ∧
  split_group Certificates ("E1", [1; 2]%Z) missing_endpoint
  = Run [] (Ok (tt, missing_endpoint)) ∧
  for_each [("E1", [1; 2]%Z)] (split_group Certificates) missing_endpoint
  = for_each [] (split_group Certificates) missing_endpoint ∧
  (select_dup_groups (certificates missing_endpoint) = [("E1", [1; 2]%Z)] →
   reconcile missing_endpoint
   = bind (for_each [] (split_group Certificates))
          (λ _, split_relation DataPackages) missing_endpoint).
Proof.
  split; [reflexivity|].
  apply (skip_missing_endpoint Certificates "E1" 1 [2%Z] [] missing_endpoint).
  reflexivity.
Defined.

(** C10.  [scenario_split] has no unique constraint, and certificate 2
    holds ["E1::dup::2"].  Both [DROP CONSTRAINT] statements fail; their
    exceptions are dropped, but the transaction is aborted, and the first
    [UPDATE] is refused.  The reversal raises before it has written
    anything: certificate 2 is not rewritten and the clone is not
    deleted. *)
Theorem downgrade_unconstrained_raises :
  downgrade scenario_split = Run [] (Err InFailedSqlTransaction) ∧
  ¬ reversal_syntactic scenario_split ∧
  certificates scenario_split !! 2%Z = Some (Some "E1::dup::2") ∧
  is_Some (euds scenario_split !! "E1::dup::2").
Proof.
  split_and!; [vm_compute; reflexivity| |reflexivity|by eexists].
  intros (s' & H & _). rewrite downgrade_scenario_split in H. discriminate H.
Qed.

(** ** Further facts about strings *)

Lemma append_assoc a b c : (a +:+ b) +:+ c = a +:+ (b +:+ c).
Proof.
  induction a as [|x a IH]; [reflexivity|].
  change (String x ((a +:+ b) +:+ c) = String x (a +:+ (b +:+ c))).
  by rewrite IH.
Qed.

Lemma length_append a b :
  String.length (a +:+ b) = String.length a + String.length b.
Proof.
  induction a as [|x a IH]; [reflexivity|].
  change (S (String.length (a +:+ b)) = S (String.length a + String.length b)).
  by rewrite IH.
Qed.

Lemma length_substring_for n s : String.length (Sql.substring_for n s) ≤ n.
Proof.
  revert s. induction n as [|n IH]; intros [|c s]; simpl; try lia.
  specialize (IH s). lia.
Qed.

Lemma ends_with_inv suf s :
  Sql.ends_with suf s = true → ∃ p, s = p +:+ suf.
Proof.
  induction s as [|c s IH]; simpl; intros H.
  - rewrite orb_false_r in H. apply String.eqb_eq in H as ->.
    by exists EmptyString.
  - apply orb_true_iff in H as [H|H].
    + apply String.eqb_eq in H as ->. by exists EmptyString.
    + destruct (IH H) as [p ->]. by exists (String c p).
Qed.

(** The part of a string before the first occurrence of [sub] has no
    occurrence of [sub], when [sub] is not empty. *)
Lemma position_prefix_free sub s n p q :
  0 < String.length sub →
  Sql.position sub s = S n → s = p +:+ (sub +:+ q) → String.length p = n →
  Sql.like_infix sub p = false.
Proof.
  intros Hsub Hpos Hs Hn.
  destruct (position_first _ _ _ Hpos) as (_ & _ & _ & _ & Hmin).
  destruct (Sql.like_infix sub p) eqn:Hp; [exfalso|done].
  apply like_infix_inv in Hp as (p' & q' & ->).
  rewrite !append_assoc in Hs. apply Hmin in Hs.
  rewrite !length_append in Hn. lia.
Qed.

Lemma orig_uid_sep_free v :
  Sql.like_infix Sql.separator v = true →
  Sql.like_infix Sql.separator (Sql.orig_uid v) = false.
Proof.
  intros Hlike. unfold Sql.orig_uid.
  destruct (Sql.position Sql.separator v) as [|n] eqn:Hpos.
  { by rewrite like_infix_position, Hpos in Hlike. }
  destruct (position_first _ _ _ Hpos) as (p & q & Hv & Hn & _).
  replace (S n - 1) with n by lia.
  subst v. rewrite <- Hn, substring_for_app.
  by apply (position_prefix_free Sql.separator _ n p q (Nat.lt_0_succ 6) Hpos).
Qed.

Lemma restore_fk_sep_free fk : sep_free_fk (restore_fk fk) = true.
Proof.
  destruct fk as [v|]; simpl; [|done].
  destruct (Sql.like_infix Sql.separator v) eqn:Hlike; simpl.
  - by rewrite orig_uid_sep_free.
  - by rewrite Hlike.
Qed.

Lemma restore_fk_id fk : sep_free_fk fk = true → restore_fk fk = fk.
Proof.
  destruct fk as [v|]; simpl; [|done].
  intros H%negb_true_iff. by rewrite H.
Qed.

(** X4.  What the rewrite of the reversal returns never contains the
    separator; rewriting twice is rewriting once. *)
Theorem restore_fk_once fk :
  sep_free_fk (restore_fk fk) = true ∧
  restore_fk (restore_fk fk) = restore_fk fk.
Proof.
  split; [apply restore_fk_sep_free|].
  apply restore_fk_id, restore_fk_sep_free.
Qed.

(** The clone uid of an identifier that is not clean has a separator that
    starts inside the identifier. *)
Lemma unclean_early_sep g d :
  clean g = false →
  ∃ p r, g +:+ (Sql.separator +:+ d) = p +:+ (Sql.separator +:+ r) ∧
         String.length p < String.length g.
Proof.
  unfold clean. rewrite !andb_false_iff, !negb_false_iff.
  intros [[H|H]|H].
  - apply like_infix_inv in H as (p & q & ->).
    exists p, (q +:+ (Sql.separator +:+ d)).
    rewrite !append_assoc, !length_append. split; [done|].
    simpl. lia.
  - apply ends_with_inv in H as [p ->].
    exists p, ("dup::" +:+ d).
    rewrite !append_assoc, !length_append. split; [done|]. simpl. lia.
  - apply ends_with_inv in H as [p ->].
    exists p, (":dup::" +:+ d).
    rewrite !append_assoc, !length_append. split; [done|]. simpl. lia.
Qed.

(** X5.  Cutting a clone uid at its first separator gives back the uid it
    was made from exactly when that uid is clean. *)
Theorem orig_uid_new_uid_iff g i :
  Sql.orig_uid (new_uid g i) = g ↔ clean g = true.
Proof.
  split; [|apply orig_uid_new_uid].
  intros Heq. destruct (clean g) eqn:Hclean; [done|exfalso].
  destruct (unclean_early_sep g (str i) Hclean) as (p & r & Hpr & Hlen).
  unfold Sql.orig_uid in Heq. fold (new_uid g i) in Hpr.
  destruct (Sql.position Sql.separator (new_uid g i)) as [|n] eqn:Hpos.
  { pose proof (like_infix_new_uid g i) as Hl.
    by rewrite like_infix_position, Hpos in Hl. }
  destruct (position_first _ _ _ Hpos) as (_ & _ & _ & _ & Hmin).
  apply Hmin in Hpr.
  pose proof (length_substring_for (S n - 1) (new_uid g i)) as Hsub.
  rewrite Heq in Hsub. lia.
Qed.

(** ** Further facts about the duplicates query *)

Lemma StronglySorted_le_lt (l : list Z) :
  StronglySorted Z.le l → NoDup l → StronglySorted Z.lt l.
Proof.
  induction 1 as [|a l Hs IH Hall]; intros Hnd; constructor.
  - apply NoDup_cons in Hnd as [_ ?]. auto.
  - apply NoDup_cons in Hnd as [Ha _].
    rewrite Forall_forall in Hall |- *. intros x Hx.
    specialize (Hall x Hx). assert (a ≠ x) by (by intros ->). lia.
Qed.

(** X1.  A row of the duplicates query holds exactly the ids of the
    records whose column has the row's value, at least two of them, in
    strictly ascending order. *)
Theorem dup_group_members t g ids :
  (g, ids) ∈ select_dup_groups t →
  (∀ i, i ∈ ids ↔ t !! i = Some (Some g)) ∧
  2 ≤ length ids ∧
  StronglySorted Z.lt ids.
Proof.
  intros [-> Hlen]%select_dup_groups_elem. split_and!.
  - intros i. apply array_agg_ids_elem.
  - lia.
  - apply StronglySorted_le_lt;
      [apply array_agg_ids_sorted|apply array_agg_ids_NoDup].
Qed.

Lemma dup_group_members_witness :
  ("E1", [1; 2]%Z) ∈ select_dup_groups (certificates scenario) ∧
  (∀ i, i ∈ [1; 2]%Z ↔ certificates scenario !! i = Some (Some "E1")) ∧
  2 ≤ length [1; 2]%Z ∧
  StronglySorted Z.lt [1; 2]%Z.
Proof.
  assert (("E1", [1; 2]%Z) ∈ select_dup_groups (certificates scenario)) as H.
  { apply select_dup_groups_elem. split; [vm_compute; reflexivity|simpl; lia]. }
  split; [done|].
  apply (dup_group_members (certificates scenario) "E1" [1; 2]%Z H).
Defined.

(** X2.  No value comes twice in the rows of the duplicates query, and no
    record is in two rows. *)
Theorem dup_groups_disjoint t :
  NoDup (select_dup_groups t).*1 ∧
  ∀ g1 ids1 g2 ids2 i,
    (g1, ids1) ∈ select_dup_groups t → (g2, ids2) ∈ select_dup_groups t →
    i ∈ ids1 → i ∈ ids2 → g1 = g2 ∧ ids1 = ids2.
Proof.
  split; [apply select_dup_groups_NoDup|].
  intros g1 ids1 g2 ids2 i [-> _]%select_dup_groups_elem
         [-> _]%select_dup_groups_elem H1%array_agg_ids_elem
         H2%array_agg_ids_elem.
  assert (g1 = g2) as -> by congruence. done.
Qed.

(** X3.  The duplicates query of a table returns no row exactly when no
    two records of the table hold the same non-null value. *)
Theorem dup_groups_empty_iff_unique t :
  select_dup_groups t = [] ↔ fk_unique t.
Proof.
  split; [|apply fk_unique_no_groups].
  intros Hnone. apply fk_unique_lookup. intros i j v Hi Hj.
  destruct (decide (i = j)) as [|Hij]; [done|].
  pose proof (select_dup_groups_complete _ _ _ _ Hi Hj Hij) as Hin.
  rewrite Hnone in Hin. by apply elem_of_nil in Hin.
Qed.

(** ** Further facts about the forward pass *)



(** ** What the forward pass has done so far *)

Lemma triple_conj {A} P1 P2 I1 I2 (Q1 Q2 : A → store → Prop) E1 E2 (m : M A) :
  triple P1 m I1 Q1 E1 → triple P2 m I2 Q2 E2 →
  triple (λ s, P1 s ∧ P2 s) m (λ s, I1 s ∧ I2 s)
         (λ a s, Q1 a s ∧ Q2 a s) (λ e, E1 e ∧ E2 e).
Proof.
  intros H1 H2 s [Hs1 Hs2].
  destruct (H1 s Hs1) as [Ht1 Ho1]. destruct (H2 s Hs2) as [Ht2 Ho2]. split.
  - rewrite Forall_forall in Ht1, Ht2 |- *. auto.
  - destruct (outcome (m s)) as [[a s']|e]; auto.
Qed.

Lemma clone_of_lookup t0 i u :
  clone_of t0 i u → ∃ g, t0 !! i = Some (Some g) ∧ u = new_uid g i.
Proof.
  intros (g & k & rest & Hin & Hi & ->). exists g. split; [|done].
  apply select_dup_groups_elem in Hin as [Hids _].
  apply array_agg_ids_elem. rewrite <- Hids. by right.
Qed.

Section progress.
Variable s0 : store.

Lemma progress_start : progress s0 s0.
Proof. split_and!; [done| |by left]. intros u [e He] Hn. congruence. Qed.

Lemma progress_insert R x u row s s' :
  progress s0 s → clone_of (table R s0) x u → insert_eud u row s = Ok s' →
  progress s0 s'.
Proof.
  intros (H1 & H2 & H3) Hu (Hnone & He & Ht & _)%insert_eud_ok. split_and!.
  - intros v e Hv. rewrite He, lookup_insert_ne; [by apply H1|].
    intros ->. apply H1 in Hv. congruence.
  - intros v Hv Hv0. rewrite He in Hv.
    destruct (decide (u = v)) as [<-|Hne]; [by exists R, x|].
    rewrite lookup_insert_ne in Hv by done. by apply H2.
  - intros R' i. rewrite Ht. apply H3.
Qed.

Lemma progress_update R x u s :
  progress s0 s → clone_of (table R s0) x u →
  progress s0 (with_table R (alter (λ _, Some u) x (table R s)) s).
Proof.
  intros (H1 & H2 & H3) Hu. split_and!.
  - intros v e. rewrite euds_with_table. apply H1.
  - intros v. rewrite euds_with_table. apply H2.
  - intros R' i. destruct (decide (R' = R)) as [->|HR].
    + rewrite table_with_table.
      destruct (decide (x = i)) as [->|Hx].
      * rewrite lookup_alter_eq.
        destruct (table R s !! i) as [fk|] eqn:Hi; simpl.
        -- right. by exists u.
        -- left. destruct (H3 R i) as [Heq|(? & _ & ?)]; congruence.
      * rewrite lookup_alter_ne by done. apply H3.
    + rewrite table_with_table_ne by done. apply H3.
Qed.

Lemma clone_and_reassign_progress R g row x :
  clone_of (table R s0) x (new_uid g x) →
  keeps_progress s0 (clone_and_reassign R g row x).
Proof.
  intros Hx.
  assert (keeps_progress s0 (exec (insert_eud (new_uid g x) row))) as Hins.
  { apply triple_exec. intros s Hs.
    destruct (insert_eud _ _ _) as [s'|e] eqn:Hi; [|done].
    split; by apply (progress_insert R x (new_uid g x) row s s'). }
  unfold keeps_progress, clone_and_reassign.
  apply triple_bind with (Q := λ _, progress s0).
  - destruct R; [done|].
    apply triple_bind with (Q := λ _, progress s0); [by apply triple_query|].
    intros [c|]; [by apply triple_ret|done].
  - intros []. apply triple_exec. intros s Hs. simpl.
    split; by apply progress_update.
Qed.

Lemma split_group_progress R g ids :
  (g, ids) ∈ select_dup_groups (table R s0) →
  keeps_progress s0 (split_group R (g, ids)).
Proof.
  intros Hin. unfold keeps_progress, split_group. simpl.
  destruct ids as [|k rest]; [by apply triple_raise|].
  apply triple_bind with (Q := λ _, progress s0); [by apply triple_query|].
  intros [row|]; [|by apply triple_ret].
  apply (triple_for_each (λ _ _, progress s0)). intros done x todo Hl.
  apply clone_and_reassign_progress. exists g, k, rest.
  split_and!; [done| |done]. rewrite Hl, elem_of_app, elem_of_cons. auto.
Qed.

Lemma split_relation_progress R :
  triple (λ s, progress s0 s ∧ table R s = table R s0) (split_relation R)
         (progress s0) (λ _, progress s0) (λ _, True).
Proof.
  unfold split_relation.
  apply triple_bind with
    (Q := λ dups s, progress s0 s ∧ dups = select_dup_groups (table R s0)).
  { apply triple_query. intros s [Hs ->]. done. }
  intros dups. apply triple_from. intros s [Hs ->].
  eapply triple_conseq.
  - apply (triple_for_each (λ _ _, progress s0)). intros done [g ids] todo Hl.
    apply split_group_progress. rewrite Hl, elem_of_app, elem_of_cons. auto.
  - by intros ? <-.
  - done.
  - done.
  - done.
Qed.

Lemma reconcile_progress :
  triple (eq s0) reconcile (progress s0) (λ _, progress s0) (λ _, True).
Proof.
  unfold reconcile.
  apply triple_bind with
    (Q := λ _ s, progress s0 s ∧
                 table DataPackages s = table DataPackages s0).
  - eapply triple_conseq.
    + apply (triple_conj _ _ _ _ _ _ _ _ _
               (split_relation_progress Certificates)
               (split_relation_triple Certificates s0)).
    + intros ? <-. split; [|done]. split; [apply progress_start|done].
    + by intros s [? _].
    + intros [] s [Hs (_ & Ho & _)]. split; [done|]. by apply Ho.
    + done.
  - intros []. apply split_relation_progress.
Qed.

Lemma upgrade_progress :
  triple (eq s0) upgrade (progress s0) (λ _, progress s0) (λ _, True).
Proof.
  unfold upgrade, add_unique_constraints.
  apply triple_bind with (Q := λ _, progress s0); [apply reconcile_progress|].
  intros [].
  apply triple_bind with (Q := λ _, progress s0); [|intros []];
    apply triple_exec; by intros s Hs.
Qed.

End progress.

Lemma upgrade_trace_progress s0 : Forall (progress s0) (trace (upgrade s0)).
Proof. by apply (triple_trace _ _ _ _ _ _ (upgrade_progress s0)). Qed.

(** X8.  The forward pass loses nothing, at any moment and however it
    ends: every store it writes has the endpoints of the start, each with
    its row unchanged, and in each table the records of the start, no more
    and no less. *)
Theorem upgrade_loses_nothing s0 :
  Forall (λ s, (∀ u e, euds s0 !! u = Some e → euds s !! u = Some e) ∧
               ∀ R i, is_Some (table R s !! i) ↔ is_Some (table R s0 !! i))
         (trace (upgrade s0)).
Proof.
  eapply Forall_impl; [apply upgrade_trace_progress|].
  intros s (H1 & _ & H3). split; [done|]. intros R i.
  destruct (H3 R i) as [->|(u & Hu & ->)]; [done|].
  apply clone_of_lookup in Hu as (g & -> & _). split; eauto.
Qed.

(** X9.  In every store that the forward pass writes, a record that is not
    a later member of a duplicate group (the first of a group, a record
    with a value of its own, a record without a value) has the value it
    had at the start. *)
Theorem upgrade_moves_later_members_only s0 :
  Forall (λ s, ∀ R i,
            (∀ g k rest, (g, k :: rest) ∈ select_dup_groups (table R s0) →
                         i ∉ rest) →
            table R s !! i = table R s0 !! i)
         (trace (upgrade s0)).
Proof.
  eapply Forall_impl; [apply upgrade_trace_progress|].
  intros s (_ & _ & H3) R i Hi.
  destruct (H3 R i) as [|(u & (g & k & rest & Hin & Hrest & _) & _)]; [done|].
  by destruct (Hi g k rest).
Qed.

(** The rewrite and the delete of the reversal undo whatever progress the
    forward pass has made. *)
Lemma restore_progress s0 s :
  euds_sep_free s0 →
  (∀ R, map_Forall (λ _ fk, clean_fk fk = true) (table R s0)) →
  progress s0 s →
  (∀ R, restore_fk <$> table R s = table R s0) ∧
  filter (λ r, Sql.like_infix Sql.separator r.1 = false) (euds s) = euds s0.
Proof.
  intros Hfree Hclean (H1 & H2 & H3). split.
  - intros R. apply map_eq. intros i. rewrite lookup_fmap.
    destruct (H3 R i) as [->|(u & Hu & ->)].
    + destruct (table R s0 !! i) as [fk|] eqn:Hi; simpl; [|done].
      f_equal. apply (Hclean R) in Hi. destruct fk as [v|]; [|done].
      simpl in *. apply clean_true in Hi as (-> & _). done.
    + apply clone_of_lookup in Hu as (g & Hi & ->). rewrite Hi. simpl.
      rewrite like_infix_new_uid. apply (Hclean R) in Hi. simpl in Hi.
      by rewrite orig_uid_new_uid.
  - apply map_eq. intros u.
    destruct (euds s0 !! u) as [e|] eqn:Hu.
    + apply map_lookup_filter_Some. split; [by apply H1|].
      by apply (Hfree u e).
    + apply map_lookup_filter_None.
      destruct (euds s !! u) as [c|] eqn:Hc; [right|by left].
      intros c' [= <-]. simpl.
      destruct (H2 u) as (R & i & g & k & rest & _ & _ & ->); [eauto|done|].
      by rewrite like_infix_new_uid.
Qed.

(** X10.  If no endpoint uid of the store contains the separator and every
    foreign-key value is clean, then in every store that the forward pass
    writes, however the pass ends, the data of before the pass is still
    there under the rewrite and the delete of the reversal: cutting every
    foreign-key value at its first separator gives the tables of before,
    and leaving out the endpoints whose uid contains the separator gives
    the endpoints of before. *)
Theorem restore_recovers s0 :
  euds_sep_free s0 →
  (∀ R, map_Forall (λ _ fk, clean_fk fk = true) (table R s0)) →
  Forall (λ s, (∀ R, restore_fk <$> table R s = table R s0) ∧
               filter (λ r, Sql.like_infix Sql.separator r.1 = false) (euds s)
               = euds s0)
         (trace (upgrade s0)).
Proof.
  intros Hfree Hclean.
  eapply Forall_impl; [apply upgrade_trace_progress|].
  intros s Hs. by apply restore_progress.
Qed.

Lemma restore_recovers_witness :
  euds_sep_free scenario ∧
  (∀ R, map_Forall (λ _ fk, clean_fk fk = true) (table R scenario)) ∧
  Forall (λ s, (∀ R, restore_fk <$> table R s = table R scenario) ∧
               filter (λ r, Sql.like_infix Sql.separator r.1 = false) (euds s)
               = euds scenario)
         (trace (upgrade scenario)).
Proof.
  assert (euds_sep_free scenario) as H1
    by (apply (bool_decide_unpack _); vm_compute; exact I).
  assert (∀ R, map_Forall (λ _ fk, clean_fk fk = true) (table R scenario))
    as H2 by (intros [|]; apply (bool_decide_unpack _); vm_compute; exact I).
  split; [done|]. split; [done|].
  apply (restore_recovers scenario H1 H2).
Defined.

(** ** Further facts about steps 1-3 *)

(** X11.  Where no foreign-key value contains the separator and steps 1-3
    return, every endpoint that was not there before is the clone of a
    later member of a duplicate group, and that record points to it: the
    steps leave no clone without its record. *)
Theorem reconcile_clones_are_used s s' u :
  fks_sep_free s → outcome (reconcile s) = Ok (tt, s') →
  is_Some (euds s' !! u) → euds s !! u = None →
  ∃ R g k rest i,
    (g, k :: rest) ∈ select_dup_groups (table R s) ∧ i ∈ rest ∧
    u = new_uid g i ∧ table R s' !! i = Some (Some u).
Proof.
  intros Hfree Hok [c Hc] Hnone.
  pose proof (triple_outcome _ _ _ _ _ _ _ _ (reconcile_progress s) eq_refl Hok)
    as (_ & H2 & _).
  apply reconcile_all_ok in Hok as [([Hmono Hnew] & _) Hall].
  destruct (H2 u) as (R & i & g & k & rest & Hin & Hi & ->); [eauto|done|].
  exists R, g, k, rest, i. split_and!; [done..|].
  destruct (Hnew _ _ Hc Hnone) as (g' & i' & e & Heq & Hg' & _).
  apply clone_uid_split in Heq as [<- <-].
  assert (is_Some (euds s !! g)) as Hg.
  { destruct (euds s !! g) as [e0|] eqn:Hg0; [eauto|exfalso].
    destruct (Hnew _ _ Hg' Hg0) as (g2 & i2 & _ & -> & _).
    pose proof Hin as [Hids _]%select_dup_groups_elem.
    assert (table R s !! k = Some (Some (new_uid g2 i2))) as Hk.
    { apply array_agg_ids_elem. rewrite <- Hids. left. }
    apply (Hfree R) in Hk. simpl in Hk. by rewrite like_infix_new_uid in Hk. }
  destruct (Hall R _ _ Hin) as (? & ? & ? & [= <- <-] & _ & _ & Hrest);
    [done|].
  by apply Hrest.
Qed.

Lemma reconcile_clones_are_used_witness :
  fks_sep_free scenario ∧
  outcome (reconcile scenario) = Ok (tt, scenario_split) ∧
  is_Some (euds scenario_split !! "E1::dup::2") ∧
  euds scenario !! "E1::dup::2" = None ∧
  ∃ R g k rest i,
    (g, k :: rest) ∈ select_dup_groups (table R scenario) ∧ i ∈ rest ∧
    "E1::dup::2" = new_uid g i ∧
    table R scenario_split !! i = Some (Some "E1::dup::2").
Proof.
  assert (fks_sep_free scenario) as H0
    by (intros [|]; apply (bool_decide_unpack _); vm_compute; exact I).
  assert (outcome (reconcile scenario) = Ok (tt, scenario_split)) as H1
    by (vm_compute; reflexivity).
  assert (is_Some (euds scenario_split !! "E1::dup::2")) as H2
    by (by exists (alpha 2)).
  assert (euds scenario !! "E1::dup::2" = None) as H3 by reflexivity.
  split_and!; [done..|].
  apply (reconcile_clones_are_used scenario scenario_split "E1::dup::2"
           H0 H1 H2 H3).
Defined.

(** X12.  Where no foreign-key value contains the separator and steps 1-3
    return, a table is left without two records that share a value exactly
    when the uid of each of its duplicate groups had an endpoint before:
    the groups with an endpoint are split, the others are skipped and
    remain. *)
Theorem reconcile_unique_iff s s' R :
  fks_sep_free s → outcome (reconcile s) = Ok (tt, s') →
  fk_unique (table R s') ↔
  Forall (λ row, is_Some (euds s !! row.1)) (select_dup_groups (table R s)).
Proof.
  intros Hfree Hall%reconcile_all_ok. rewrite Forall_forall. split.
  - intros Hu [g ids] Hin. simpl.
    destruct (euds s !! g) as [e|] eqn:Hg; [eauto|exfalso].
    pose proof Hin as [Hids Hlen]%select_dup_groups_elem.
    destruct Hall as [([_ Hnew] & _ & Hgrp) _].
    destruct (Hgrp R) as [_ Hs].
    destruct (Hs _ _ Hin) as [Hk|(k & rest & row & -> & Hk & Hrow & _)].
    + apply (kept_not_unique R g ids s'); [done..| |done].
      rewrite Hids. apply array_agg_ids_NoDup.
    + destruct (Hnew _ _ Hrow Hg) as (g2 & i2 & _ & -> & _).
      assert (table R s !! k = Some (Some (new_uid g2 i2))) as Hk0.
      { apply array_agg_ids_elem. rewrite <- Hids. left. }
      apply (Hfree R) in Hk0. simpl in Hk0.
      by rewrite like_infix_new_uid in Hk0.
  - intros Hrows. apply fk_unique_lookup. intros i j v Hi Hj.
    destruct (decide (i = j)) as [|Hij]; [done|exfalso].
    destruct (reconciled_same_value s s' R i j v Hfree Hall Hi Hj Hij)
      as (Hi0 & Hj0 & Hv & _).
    pose proof (select_dup_groups_complete _ _ _ _ Hi0 Hj0 Hij) as Hin.
    destruct (Hrows _ Hin) as [e He]. simpl in He. congruence.
Qed.

Lemma reconcile_unique_iff_witness :
  fks_sep_free scenario ∧
  outcome (reconcile scenario) = Ok (tt, scenario_split) ∧
  (fk_unique (table Certificates scenario_split) ↔
   Forall (λ row, is_Some (euds scenario !! row.1))
          (select_dup_groups (table Certificates scenario))).
Proof.
  assert (fks_sep_free scenario) as H0
    by (intros [|]; apply (bool_decide_unpack _); vm_compute; exact I).
  assert (outcome (reconcile scenario) = Ok (tt, scenario_split)) as H1
    by (vm_compute; reflexivity).
  split_and!; [done..|].
  apply (reconcile_unique_iff scenario scenario_split Certificates H0 H1).
Defined.

(** X13.  When steps 1-3 return, a certificate and a data package with the
    same id that are later members of the groups of the same uid, which
    had an endpoint, are on the same clone: the clone uid does not tell
    the two tables apart, and the data_packages loop takes the clone that
    the certificates loop has made. *)
Theorem shared_clone s s' g kc restc kp restp i :
  outcome (reconcile s) = Ok (tt, s') →
  is_Some (euds s !! g) →
  (g, kc :: restc) ∈ select_dup_groups (certificates s) →
  (g, kp :: restp) ∈ select_dup_groups (data_packages s) →
  i ∈ restc → i ∈ restp →
  certificates s' !! i = Some (Some (new_uid g i)) ∧
  data_packages s' !! i = certificates s' !! i.
Proof.
  intros [_ Hall]%reconcile_all_ok Hg Hc Hp Hic Hip.
  destruct (Hall Certificates _ _ Hc Hg)
    as (? & ? & ? & [= <- <-] & _ & _ & Hrc).
  destruct (Hall DataPackages _ _ Hp Hg)
    as (? & ? & ? & [= <- <-] & _ & _ & Hrp).
  destruct (Hrc i Hic) as [Hci _]. destruct (Hrp i Hip) as [Hpi _].
  simpl in *. by rewrite Hpi, Hci.
Qed.

Lemma shared_clone_witness :
  outcome (reconcile shared) = Ok (tt, shared_split) ∧
  is_Some (euds shared !! "E1") ∧
  ("E1", [1; 2]%Z) ∈ select_dup_groups (certificates shared) ∧
  ("E1", [1; 2]%Z) ∈ select_dup_groups (data_packages shared) ∧
  2%Z ∈ [2%Z] ∧
  certificates shared_split !! 2%Z = Some (Some (new_uid "E1" 2)) ∧
  data_packages shared_split !! 2%Z = certificates shared_split !! 2%Z.
Proof.
  assert (outcome (reconcile shared) = Ok (tt, shared_split)) as H1
    by (vm_compute; reflexivity).
  assert (is_Some (euds shared !! "E1")) as H0 by (by exists (alpha 1)).
  assert (("E1", [1; 2]%Z) ∈ select_dup_groups (certificates shared)) as H2.
  { apply select_dup_groups_elem. split; [vm_compute; reflexivity|simpl; lia]. }
  assert (("E1", [1; 2]%Z) ∈ select_dup_groups (data_packages shared)) as H3.
  { apply select_dup_groups_elem. split; [vm_compute; reflexivity|simpl; lia]. }
  assert (2%Z ∈ [2%Z]) as H4 by left.
  split_and!; [done..| |];
    apply (shared_clone shared shared_split "E1" 1 [2%Z] 1 [2%Z] 2
             H1 H0 H2 H3 H4 H4).
Defined.

(** ** Further facts about the reversal *)

Lemma downgrade_store_sep_free s :
  (∀ R, map_Forall (λ _ fk, sep_free_fk fk = true)
          (table R (downgrade_store s))) ∧
  euds_sep_free (downgrade_store s).
Proof.
  split.
  - intros R i fk Hi.
    assert (table R (downgrade_store s) = restore_fk <$> table R s) as Ht
      by (by destruct R).
    rewrite Ht, lookup_fmap in Hi.
    destruct (table R s !! i) as [fk0|]; simplify_eq/=.
    apply restore_fk_sep_free.
  - intros u e Hu. simpl in Hu.
    by apply map_lookup_filter_Some in Hu as [_ ?].
Qed.

Lemma downgrade_without_key s :
  unique_key Certificates s = false →
  downgrade s = Run [] (Err InFailedSqlTransaction).
Proof. destruct s as [e n c d [|] [|]]; simpl; by intros [=]. Qed.

(** X6.  After a reversal that returned, neither constraint exists and
    nothing in the store contains the separator; a second reversal raises
    and writes nothing.  The [try ... except: pass] around each
    [DROP CONSTRAINT] does not make the reversal repeatable. *)
Theorem downgrade_twice s s1 :
  outcome (downgrade s) = Ok (tt, s1) →
  (∀ R, unique_key R s1 = false) ∧
  (∀ R, map_Forall (λ _ fk, sep_free_fk fk = true) (table R s1)) ∧
  euds_sep_free s1 ∧
  downgrade s1 = Run [] (Err InFailedSqlTransaction).
Proof.
  rewrite downgrade_outcome.
  destruct (unique_key Certificates s && unique_key DataPackages s);
    intros [= <-].
  destruct (downgrade_store_sep_free s) as [Ht He].
  split_and!; [by intros [|]|done..|].
  by apply downgrade_without_key.
Qed.

Lemma downgrade_twice_witness :
  outcome (downgrade scenario_constrained) = Ok (tt, scenario_downgraded) ∧
  (∀ R, unique_key R scenario_downgraded = false) ∧
  (∀ R, map_Forall (λ _ fk, sep_free_fk fk = true)
          (table R scenario_downgraded)) ∧
  euds_sep_free scenario_downgraded ∧
  downgrade scenario_downgraded = Run [] (Err InFailedSqlTransaction).
Proof.
  assert (outcome (downgrade scenario_constrained)
          = Ok (tt, scenario_downgraded)) as H by (vm_compute; reflexivity).
  split; [done|].
  apply (downgrade_twice scenario_constrained scenario_downgraded H).
Defined.

(** X14.  The reversal returns exactly where both unique constraints
    exist.  Elsewhere a [DROP CONSTRAINT] fails, its exception is dropped,
    the transaction stays aborted and the first [UPDATE] is refused: the
    reversal raises, and no store that it has written differs from the
    start in a table or in the endpoints. *)
Theorem downgrade_returns_iff s :
  ((∃ s', outcome (downgrade s) = Ok (tt, s')) ↔
   unique_key Certificates s = true ∧ unique_key DataPackages s = true) ∧
  (unique_key Certificates s = false ∨ unique_key DataPackages s = false →
   outcome (downgrade s) = Err InFailedSqlTransaction ∧
   Forall (λ s', (∀ R, table R s' = table R s) ∧ euds s' = euds s)
          (trace (downgrade s))).
Proof.
  split.
  - rewrite downgrade_outcome.
    destruct (unique_key Certificates s), (unique_key DataPackages s);
      simpl; split; try (by intros [s' [=]]); try (by intros [[=] [=]]);
      eauto.
  - destruct s as [e n c d [|] [|]]; simpl; intros [[=]|[=]];
      (split; [reflexivity|]); repeat constructor; by intros [|].
Qed.

(** X16.  Where both unique constraints exist, the reversal returns, and
    it is syntactic.  A foreign-key value that contains the
    separator is cut before its first occurrence, whatever follows it; a
    value without it, and a null, stay.  An endpoint whose uid contains the
    separator is deleted, whoever made it; the others stay.  In particular
    ["E1::dup::2::dup::3"] becomes ["E1"] at once. *)
Theorem downgrade_is_syntactic s :
  unique_key Certificates s = true → unique_key DataPackages s = true →
  ∃ s', outcome (downgrade s) = Ok (tt, s') ∧
    (∀ R i v, table R s !! i = Some (Some v) →
       Sql.like_infix Sql.separator v = true →
       ∃ p q, v = p +:+ (Sql.separator +:+ q) ∧
              (∀ p' q', v = p' +:+ (Sql.separator +:+ q') →
                        String.length p ≤ String.length p') ∧
              table R s' !! i = Some (Some p)) ∧
    (∀ R i fk, table R s !! i = Some fk → sep_free_fk fk = true →
       table R s' !! i = Some fk) ∧
    (∀ u, Sql.like_infix Sql.separator u = true → euds s' !! u = None) ∧
    (∀ u, Sql.like_infix Sql.separator u = false →
          euds s' !! u = euds s !! u) ∧
    Sql.orig_uid "E1::dup::2::dup::3" = "E1".
Proof.
  intros Hc Hp. exists (downgrade_store s).
  destruct (downgrade_store_cut s) as (H1 & H2 & H3 & H4).
  split_and!; [|done..|reflexivity].
  by rewrite downgrade_outcome, Hc, Hp.
Qed.

Lemma downgrade_is_syntactic_witness :
  unique_key Certificates scenario_constrained = true ∧
  unique_key DataPackages scenario_constrained = true ∧
  ∃ s', outcome (downgrade scenario_constrained) = Ok (tt, s') ∧
    (∀ R i v, table R scenario_constrained !! i = Some (Some v) →
       Sql.like_infix Sql.separator v = true →
       ∃ p q, v = p +:+ (Sql.separator +:+ q) ∧
              (∀ p' q', v = p' +:+ (Sql.separator +:+ q') →
                        String.length p ≤ String.length p') ∧
              table R s' !! i = Some (Some p)) ∧
    (∀ R i fk, table R scenario_constrained !! i = Some fk →
       sep_free_fk fk = true → table R s' !! i = Some fk) ∧
    (∀ u, Sql.like_infix Sql.separator u = true → euds s' !! u = None) ∧
    (∀ u, Sql.like_infix Sql.separator u = false →
          euds s' !! u = euds scenario_constrained !! u) ∧
    Sql.orig_uid "E1::dup::2::dup::3" = "E1".
Proof.
  split; [reflexivity|]. split; [reflexivity|].
  apply (downgrade_is_syntactic scenario_constrained); reflexivity.
Defined.

(** ** The order of the statements of the reversal *)

(** X15.  The reversal rewrites the foreign keys before it deletes the
    clones: in every store that it writes, a record whose value had an
    endpoint when the reversal started still has that endpoint. *)
Theorem downgrade_deletes_last s0 :
  Forall (λ s, ∀ R i v, table R s !! i = Some (Some v) →
                        is_Some (euds s0 !! v) → is_Some (euds s !! v))
         (trace (downgrade s0)).
Proof.
  assert (∀ (t : gmap Z (option string)) i v (e : gmap string eud) x,
            (restore_fk <$> t) !! i = Some (Some v) → e !! v = Some x →
            filter (λ r : string * eud,
                      Sql.like_infix Sql.separator r.1 = false) e !! v
            = Some x) as Hlast.
  { intros t i v e x Hi Hx. rewrite lookup_fmap in Hi.
    destruct (t !! i) as [fk|]; simplify_eq/=.
    pose proof (restore_fk_sep_free fk) as Hsep. rewrite Hi in Hsep.
    apply map_lookup_filter_Some. split; [done|]. simpl in *.
    by destruct (Sql.like_infix Sql.separator v). }
  destruct s0 as [e n c d [|] [|]]; simpl; repeat constructor;
    intros [|] i v Hi [x Hx]; simpl in *; eauto.
Qed.
